(** * redis-port: the [decode] command (cmd/decode.go)

    A shallow embedding of [cmdDecode.decoderMain], of the writer goroutine
    and of the counter plumbing of [cmdDecode.Main], together with the
    properties of the streaming decode pipeline.

    Go values are rendered as follows:
    - [[]byte] and [string] are [list byte];
    - [uint32] and [uint64] fields are [N], an [int] is [Z], a loop index [nat];
    - [atomic2.Int64] counters are [Z] with the two's complement wrap-around
      of [int64] written out;
    - [float64] is [spec_float] (IEEE 754 binary64 datum);
    - channels are FIFO lists with an explicit capacity. *)

From Stdlib Require Import String Ascii List ZArith NArith Lia Bool.
From Stdlib Require Import Strings.Byte Floats.SpecFloat.
From Stdlib Require Import Sorting.Permutation.
Import ListNotations.

Open Scope Z_scope.

(* ------------------------------------------------------------------ *)
(** ** Bytes *)

Definition bytes := list byte.

(** A Go string literal. *)
Definition lit (s : string) : bytes := list_byte_of_string s.

(** The numeric value of a byte, as Go's [uint(c)]. *)
Definition byte_val (c : byte) : Z := Z.of_N (Byte.to_N c).

(** Go's [byte(v)] conversion of an unsigned integer: the low eight bits. *)
Definition byte_of_val (v : Z) : byte :=
  match Byte.of_N (Z.to_N (Z.land v 255)) with
  | Some b => b
  | None => x00
  end.

Definition byte_eqb (a b : byte) : bool := Byte.eqb a b.

Definition ch_newline : byte := x0a.
Definition ch_dot : byte := x2e.      (* '.' *)
Definition ch_hash : byte := x23.     (* '#' *)
Definition ch_tilde : byte := x7e.    (* '~' *)
Definition ch_pad : byte := x3d.      (* '=' *)

(* ------------------------------------------------------------------ *)
(** ** toText (decode.go, lines 121-132) *)

(** The guard [c >= '#' && c <= '~'] of the switch. *)
Definition printable (c : byte) : bool :=
  (byte_val ch_hash <=? byte_val c) && (byte_val c <=? byte_val ch_tilde).

(** One iteration of the loop body: [b.WriteByte(c)] or [b.WriteByte('.')],
    the buffer being threaded explicitly. *)
Definition toText_step (b : bytes) (c : byte) : bytes :=
  if printable c then b ++ [c] else b ++ [ch_dot].

(** [var b bytes.Buffer; for _, c := range p { ... }; return b.String()] *)
Definition toText (p : bytes) : bytes :=
  fold_left toText_step p [].

(* ------------------------------------------------------------------ *)
(** ** toBase64 (decode.go, lines 133-135): [base64.StdEncoding] *)

Module Base64.

(** [encodeStd]: the alphabet of RFC 4648, section 4. *)
Definition encodeStd : bytes :=
  lit "ABCDEFGHIJKLMNOPQRSTUVWXYZabcdefghijklmnopqrstuvwxyz0123456789+/".

(** [enc.encode[i]] *)
Definition enc (i : Z) : byte := nth (Z.to_nat i) encodeStd x00.

(** The six-bit group [val >> s & 0x3F]. *)
Definition sextet (val s : Z) : Z := Z.land (Z.shiftr val s) 63.

(** [Encoding.Encode]: whole three-byte quanta first, then the remainder of
    one or two bytes with [=] padding. *)
Fixpoint EncodeToString (src : bytes) : bytes :=
  match src with
  | [] => []
  | [s0] =>
      let val := Z.shiftl (byte_val s0) 16 in
      [enc (sextet val 18); enc (sextet val 12); ch_pad; ch_pad]
  | [s0; s1] =>
      let val := Z.lor (Z.shiftl (byte_val s0) 16) (Z.shiftl (byte_val s1) 8) in
      [enc (sextet val 18); enc (sextet val 12); enc (sextet val 6); ch_pad]
  | s0 :: s1 :: s2 :: rest =>
      let val := Z.lor (Z.lor (Z.shiftl (byte_val s0) 16)
                              (Z.shiftl (byte_val s1) 8)) (byte_val s2) in
      enc (sextet val 18) :: enc (sextet val 12) ::
      enc (sextet val 6) :: enc (sextet val 0) :: EncodeToString rest
  end.

(** [enc.decodeMap[c]]: the index of [c] in the alphabet, [None] standing for
    the invalid marker 0xFF. *)
Fixpoint index_of (c : byte) (l : bytes) (i : Z) : option Z :=
  match l with
  | [] => None
  | x :: l' => if byte_eqb c x then Some i else index_of c l' (i + 1)
  end.

Definition decodeMap (c : byte) : option Z := index_of c encodeStd 0.

(** The bytes of a decoded quantum [val], most significant first. *)
Definition quantum_bytes (val : Z) (n : nat) : bytes :=
  firstn n [byte_of_val (Z.shiftr val 16);
            byte_of_val (Z.shiftr val 8);
            byte_of_val val].

(** [Encoding.decodeQuantum] over input from which CR and LF were removed:
    four alphabet characters give three bytes; padding may only close the
    input, after two or three characters. *)
Fixpoint decodeQuanta (s : bytes) : option bytes :=
  match s with
  | [] => Some []
  | c0 :: c1 :: c2 :: c3 :: rest =>
      match decodeMap c0, decodeMap c1 with
      | Some d0, Some d1 =>
          match decodeMap c2, decodeMap c3 with
          | Some d2, Some d3 =>
              let val := Z.lor (Z.lor (Z.lor (Z.shiftl d0 18) (Z.shiftl d1 12))
                                      (Z.shiftl d2 6)) d3 in
              option_map (app (quantum_bytes val 3)) (decodeQuanta rest)
          | Some d2, None =>
              if byte_eqb c3 ch_pad && (match rest with [] => true | _ => false end)
              then let val := Z.lor (Z.lor (Z.shiftl d0 18) (Z.shiftl d1 12))
                                    (Z.shiftl d2 6) in
                   Some (quantum_bytes val 2)
              else None
          | None, _ =>
              if byte_eqb c2 ch_pad && byte_eqb c3 ch_pad &&
                 (match rest with [] => true | _ => false end)
              then let val := Z.lor (Z.shiftl d0 18) (Z.shiftl d1 12) in
                   Some (quantum_bytes val 1)
              else None
          end
      | _, _ => None
      end
  | _ => None
  end.


End Base64.

Definition toBase64 (p : bytes) : bytes := Base64.EncodeToString p.


(* ------------------------------------------------------------------ *)
(** ** Fatal errors *)

(** Modelled from the spec: [log.PanicError] and [log.Panicf] (pkg/libs/log is
    not among the sources) are fatal; the run is torn down and the call never
    returns. A computation is therefore either a value or a fatal abort
    carrying the diagnostic. *)
Inductive result (A : Type) : Type :=
  | Ok (a : A)
  | Fatal (msg : string).
Arguments Ok {A} a.
Arguments Fatal {A} msg.

Definition bind {A B} (r : result A) (k : A -> result B) : result B :=
  match r with
  | Ok a => k a
  | Fatal m => Fatal m
  end.

Notation "x <- r ;; k" := (bind r (fun x => k))
  (at level 61, r at next level, right associativity).

(* ------------------------------------------------------------------ *)
(** ** encoding/json, as far as [toJson] uses it *)

Module json.

(** A struct field value of one of the kinds the anonymous structs of
    [decoderMain] hold. *)
Inductive value : Type :=
  | Uint (n : N)              (* uint32, uint64 *)
  | Int (i : Z)               (* int *)
  | Str (s : bytes)           (* string *)
  | Float (f : spec_float).   (* float64 *)

(** A struct value: the [json:"..."] tags with the field values, in
    declaration order. *)
Definition object := list (string * value).

Definition hex : bytes := lit "0123456789abcdef".

Fixpoint digits (d : Decimal.uint) : bytes :=
  match d with
  | Decimal.Nil => []
  | Decimal.D0 d => x30 :: digits d
  | Decimal.D1 d => x31 :: digits d
  | Decimal.D2 d => x32 :: digits d
  | Decimal.D3 d => x33 :: digits d
  | Decimal.D4 d => x34 :: digits d
  | Decimal.D5 d => x35 :: digits d
  | Decimal.D6 d => x36 :: digits d
  | Decimal.D7 d => x37 :: digits d
  | Decimal.D8 d => x38 :: digits d
  | Decimal.D9 d => x39 :: digits d
  end.

(** [strconv.AppendUint(b, n, 10)] *)
Definition formatUint (n : N) : bytes := digits (N.to_uint n).

(** [strconv.AppendInt(b, i, 10)] *)
Definition formatInt (i : Z) : bytes :=
  if i <? 0 then x2d :: formatUint (Z.to_N (- i)) else formatUint (Z.to_N i).

(** One byte of a string under [encodeState.string] with HTML escaping on
    (the default of [json.Marshal]). Bytes from 0x80 up belong to multi-byte
    sequences, which [decoderMain] never passes (see [toText_ascii] and
    [toBase64_ascii]); they are copied as for valid UTF-8. *)
Definition encodeByte (c : byte) : bytes :=
  let v := byte_val c in
  if byte_eqb c x22 || byte_eqb c x5c then [x5c; c]
  else if byte_eqb c x0a then [x5c; x6e]
  else if byte_eqb c x0d then [x5c; x72]
  else if byte_eqb c x09 then [x5c; x74]
  else if (v <? 32) || byte_eqb c x3c || byte_eqb c x3e || byte_eqb c x26 then
    [x5c; x75; x30; x30;
     nth (Z.to_nat (Z.shiftr v 4)) hex x00;
     nth (Z.to_nat (Z.land v 15)) hex x00]
  else [c].

Definition encodeString (s : bytes) : bytes :=
  [x22] ++ flat_map encodeByte s ++ [x22].

Section Marshal.

(** [strconv.AppendFloat] as the float encoder calls it, for a finite
    non-zero number given by sign, mantissa and exponent. *)
Variable formatFloat : bool -> positive -> Z -> bytes.

(** The float encoder: infinities and NaN are an [UnsupportedValueError]. *)
Definition encodeFloat (f : spec_float) : option bytes :=
  match f with
  | S754_zero false => Some [x30]
  | S754_zero true => Some [x2d; x30]
  | S754_infinity _ => None
  | S754_nan => None
  | S754_finite s m e => Some (formatFloat s m e)
  end.

Definition encodeValue (v : value) : option bytes :=
  match v with
  | Uint n => Some (formatUint n)
  | Int i => Some (formatInt i)
  | Str s => Some (encodeString s)
  | Float f => encodeFloat f
  end.

(** The fields of a struct, comma separated, each as ["name":value]. *)
Fixpoint encodeFields (first : bool) (o : object) : option bytes :=
  match o with
  | [] => Some []
  | (name, v) :: o' =>
      match encodeValue v, encodeFields false o' with
      | Some bv, Some rest =>
          Some ((if first then [] else [x2c]) ++
                encodeString (lit name) ++ [x3a] ++ bv ++ rest)
      | _, _ => None
      end
  end.

(** [json.Marshal] of a struct; [None] is a non-nil [err]. *)
Definition Marshal (o : object) : option bytes :=
  match encodeFields true o with
  | Some b => Some ([x7b] ++ b ++ [x7d])
  | None => None
  end.

End Marshal.

End json.

(* ------------------------------------------------------------------ *)
(** ** pkg/rdb, as far as [decoderMain] uses it *)

(** Modelled from the spec: the types of pkg/rdb (not among the sources) are
    the spec's InputRecord and DecodedValue, under the names [decoderMain]
    uses for them. *)
Module rdb.

(** [rdb.BinEntry]: the fields [decoderMain] reads. *)
Record BinEntry : Type := {
  DB : N;            (* uint32 *)
  Key : bytes;
  ExpireAt : N;      (* uint64 *)
  Value : bytes
}.

(** An element of [rdb.Hash]; [HValue] is its field [Value]. *)
Record HashElement : Type := { Field : bytes; HValue : bytes }.

(** An element of [rdb.ZSet]. *)
Record ZSetElement : Type := { Member : bytes; Score : spec_float }.

(** The dynamic type of the [interface{}] that [rdb.DecodeDump] returns.
    [Set_] is [rdb.Set]; [Other] is any value the type switch sends to its
    [default] branch. *)
Inductive object : Type :=
  | String (obj : bytes)
  | List (obj : list bytes)
  | Hash (obj : list HashElement)
  | Set_ (obj : list bytes)
  | ZSet (obj : list ZSetElement)
  | Other.

End rdb.

(* ------------------------------------------------------------------ *)
(** ** Counters *)

(** Go's [int64]: two's complement on 64 bits. *)
Module int64.

Definition min : Z := - 2 ^ 63.
Definition max : Z := 2 ^ 63 - 1.

Definition wrap (z : Z) : Z := (z + 2 ^ 63) mod 2 ^ 64 - 2 ^ 63.

Definition add (x y : Z) : Z := wrap (x + y).

Definition in_range (z : Z) : Prop := min <= z <= max.

End int64.

(** Modelled from the spec: [atomic2.Int64] (pkg/libs/atomic2 is not among the
    sources) is a process-wide [int64] counter with atomic add and read;
    every operation is one indivisible step of the interleaving. *)
Module atomic2.

Definition Int64 : Type := Z.

Definition Add (a : Int64) (v : Z) : Int64 := int64.add a v.
Definition Incr (a : Int64) : Int64 := Add a 1.
Definition Get (a : Int64) : Z := a.

End atomic2.

(** [type cmdDecode struct { rbytes, wbytes, nentry atomic2.Int64 }] *)
Record cmdDecode : Type := {
  rbytes : atomic2.Int64;
  wbytes : atomic2.Int64;
  nentry : atomic2.Int64
}.

(** [type cmdDecodeStat struct { rbytes, wbytes, nentry int64 }] *)
Record cmdDecodeStat : Type := {
  stat_rbytes : Z;
  stat_wbytes : Z;
  stat_nentry : Z
}.

(** [func (cmd *cmdDecode) Stat() *cmdDecodeStat] *)
Definition Stat (cmd : cmdDecode) : cmdDecodeStat :=
  {| stat_rbytes := atomic2.Get (rbytes cmd);
     stat_wbytes := atomic2.Get (wbytes cmd);
     stat_nentry := atomic2.Get (nentry cmd) |}.

(** Go's [len]: an [int], never negative. *)
Definition len {A} (s : list A) : Z := Z.of_nat (length s).

(* ------------------------------------------------------------------ *)
(** ** Lines of a text *)

Definition is_newline (c : byte) : bool := byte_eqb c ch_newline.

(** The number of newline-terminated lines in [s]. *)
Definition count_lines (s : bytes) : nat := length (filter is_newline s).

(** The newline-terminated lines of [s], without their terminators; [cur] is
    the line being read. Bytes after the last newline are not a line. *)
Fixpoint lines_from (cur : bytes) (s : bytes) : list bytes :=
  match s with
  | [] => []
  | c :: s' =>
      if is_newline c then cur :: lines_from [] s'
      else lines_from (cur ++ [c]) s'
  end.

Definition lines (s : bytes) : list bytes := lines_from [] s.

(* ------------------------------------------------------------------ *)
(** ** decoderMain (decode.go, lines 120-235) *)

(** What a worker does to the shared state: [cmd.nentry.Incr()] and
    [opipe <- s]. *)
Inductive op : Type :=
  | Incr
  | Send (s : bytes).

(** One element of a decoded value, in the form the loops see it. *)
Inductive element : Type :=
  | EString (obj : bytes)
  | EList (i : nat) (ele : bytes)
  | EHash (ele : rdb.HashElement)
  | ESet (mem : bytes)
  | EZSet (ele : rdb.ZSetElement).

(** The elements of a decoded value in its internal order; list elements
    carry their position. *)
Definition elements (o : rdb.object) : list element :=
  match o with
  | rdb.String obj => [EString obj]
  | rdb.List obj => map (fun p => EList (fst p) (snd p))
                        (combine (seq 0 (length obj)) obj)
  | rdb.Hash obj => map EHash obj
  | rdb.Set_ obj => map ESet obj
  | rdb.ZSet obj => map EZSet obj
  | rdb.Other => []
  end.

Section Decoder.

(** [rdb.DecodeDump]: the external payload decoder; [None] is [err != nil]. *)
Variable DecodeDump : bytes -> option rdb.object.

(** [strconv.AppendFloat], see [json.encodeFloat]. *)
Variable formatFloat : bool -> positive -> Z -> bytes.

(** [toJson]: [json.Marshal], a failure being fatal. *)
Definition toJson (o : json.object) : result bytes :=
  match json.Marshal formatFloat o with
  | Some b => Ok b
  | None => Fatal "encode to json failed"
  end.

(** [fmt.Fprintf(&b, "%s\n", s)] on the buffer [b]. *)
Definition Fprintf_line (b : bytes) (s : bytes) : bytes :=
  b ++ s ++ [ch_newline].

(** The five leading fields every struct literal shares:
    [e.DB, "<type>", e.ExpireAt, toText(e.Key), toBase64(e.Key)]. *)
Definition head_fields (e : rdb.BinEntry) (type : string) : json.object :=
  [("db"%string, json.Uint (rdb.DB e));
   ("type"%string, json.Str (lit type));
   ("expireat"%string, json.Uint (rdb.ExpireAt e));
   ("key"%string, json.Str (toText (rdb.Key e)));
   ("key64"%string, json.Str (toBase64 (rdb.Key e)))].

(** The struct literal of each case of the type switch. *)
Definition item (e : rdb.BinEntry) (x : element) : json.object :=
  match x with
  | EString obj =>
      head_fields e "string" ++
      [("value64"%string, json.Str (toBase64 obj))]
  | EList i ele =>
      head_fields e "list" ++
      [("index"%string, json.Int (Z.of_nat i));
       ("value64"%string, json.Str (toBase64 ele))]
  | EHash ele =>
      head_fields e "hash" ++
      [("field"%string, json.Str (toText (rdb.Field ele)));
       ("field64"%string, json.Str (toBase64 (rdb.Field ele)));
       ("value64"%string, json.Str (toBase64 (rdb.HValue ele)))]
  | ESet mem =>
      head_fields e "set" ++
      [("member"%string, json.Str (toText mem));
       ("member64"%string, json.Str (toBase64 mem))]
  | EZSet ele =>
      head_fields e "zset" ++
      [("member"%string, json.Str (toText (rdb.Member ele)));
       ("member64"%string, json.Str (toBase64 (rdb.Member ele)));
       ("score"%string, json.Float (rdb.Score ele))]
  end.

(** [fmt.Fprintf(&b, "%s\n", toJson(o))] for the struct of element [x]. *)
Definition emit (e : rdb.BinEntry) (x : element) (b : bytes) : result bytes :=
  j <- toJson (item e x) ;; Ok (Fprintf_line b j).

(** [for i, ele := range obj { ... }] with the buffer threaded through the
    iterations; [i] is the index of the head of [obj]. *)
Fixpoint range {A : Type} (body : nat -> A -> bytes -> result bytes)
         (i : nat) (obj : list A) (b : bytes) : result bytes :=
  match obj with
  | [] => Ok b
  | ele :: obj' => b' <- body i ele b ;; range body (S i) obj' b'
  end.

(** The type switch of lines 148-231 on the decoded object [o]: the text the
    buffer [b] holds when it is left. *)
Definition flatten (e : rdb.BinEntry) (o : rdb.object) : result bytes :=
  let b : bytes := [] in
  match o with
  | rdb.Other => Fatal "unknown object"
  | rdb.String obj => emit e (EString obj) b
  | rdb.List obj => range (fun i ele => emit e (EList i ele)) 0 obj b
  | rdb.Hash obj => range (fun _ ele => emit e (EHash ele)) 0 obj b
  | rdb.Set_ obj => range (fun _ mem => emit e (ESet mem)) 0 obj b
  | rdb.ZSet obj => range (fun _ ele => emit e (EZSet ele)) 0 obj b
  end.

(** The body of [for e := range ipipe] for one received record: decode,
    flatten, and what is then done to the shared state, in program order
    (lines 232 and 233). *)
Definition iteration (e : rdb.BinEntry) : result (list op) :=
  match DecodeDump (rdb.Value e) with
  | None => Fatal "decode failed"
  | Some o => b <- flatten e o ;; Ok [Incr; Send b]
  end.

(** [decoderMain] run alone on the records it receives until the channel is
    closed: the operations performed, and the diagnostic if it aborted. *)
Fixpoint decoderMain (received : list rdb.BinEntry) : list op * option string :=
  match received with
  | [] => ([], None)
  | e :: rest =>
      match iteration e with
      | Fatal msg => ([], Some msg)
      | Ok ops => let (t, r) := decoderMain rest in (ops ++ t, r)
      end
  end.

(* ---------------------------------------------------------------- *)
(** ** The pipeline of [cmdDecode.Main] as an interleaving of atomic steps *)

(** A buffered channel. *)
Record chan (A : Type) : Type := {
  buf : list A;
  cap : nat;
  closed : bool
}.
Arguments buf {A} c.
Arguments cap {A} c.
Arguments closed {A} c.

Definition make_chan (A : Type) (n : nat) : chan A :=
  {| buf := []; cap := n; closed := false |}.

(** [c <- x] when it can proceed. *)
Definition chan_send {A} (c : chan A) (x : A) : option (chan A) :=
  if closed c then None
  else if (length (buf c) <? cap c)%nat
       then Some {| buf := buf c ++ [x]; cap := cap c; closed := closed c |}
       else None.

(** [<-c] when a value is buffered. *)
Definition chan_recv {A} (c : chan A) : option (A * chan A) :=
  match buf c with
  | [] => None
  | x :: q => Some (x, {| buf := q; cap := cap c; closed := closed c |})
  end.

Definition chan_close {A} (c : chan A) : chan A :=
  {| buf := buf c; cap := cap c; closed := true |}.

(** Reading from a channel that is closed and drained: [range] ends. *)
Definition chan_drained {A} (c : chan A) : bool :=
  closed c && (match buf c with [] => true | _ => false end).

(** A decode worker: inside the loop with the operations of the current
    iteration still to perform (none: blocked on [range ipipe]), or returned. *)
Inductive worker : Type :=
  | Active (pending : list op)
  | Exited.

Record state : Type := {
  cmd : cmdDecode;
  source : list rdb.BinEntry;      (* records the loader has yet to produce *)
  ipipe : chan rdb.BinEntry;
  workers : list worker;
  opipe : chan bytes;
  saveto : bytes;                  (* what was written to the destination *)
  wait : bool;                     (* [close(wait)] has happened *)
  aborted : bool;                  (* a fatal error tore the run down *)
  reports : list cmdDecodeStat     (* status lines of the monitor *)
}.

Definition set_cmd (s : state) (c : cmdDecode) : state :=
  {| cmd := c; source := source s; ipipe := ipipe s; workers := workers s;
     opipe := opipe s; saveto := saveto s; wait := wait s;
     aborted := aborted s; reports := reports s |}.

Definition set_source (s : state) (x : list rdb.BinEntry) : state :=
  {| cmd := cmd s; source := x; ipipe := ipipe s; workers := workers s;
     opipe := opipe s; saveto := saveto s; wait := wait s;
     aborted := aborted s; reports := reports s |}.

Definition set_ipipe (s : state) (x : chan rdb.BinEntry) : state :=
  {| cmd := cmd s; source := source s; ipipe := x; workers := workers s;
     opipe := opipe s; saveto := saveto s; wait := wait s;
     aborted := aborted s; reports := reports s |}.

Definition set_workers (s : state) (x : list worker) : state :=
  {| cmd := cmd s; source := source s; ipipe := ipipe s; workers := x;
     opipe := opipe s; saveto := saveto s; wait := wait s;
     aborted := aborted s; reports := reports s |}.

Definition set_opipe (s : state) (x : chan bytes) : state :=
  {| cmd := cmd s; source := source s; ipipe := ipipe s; workers := workers s;
     opipe := x; saveto := saveto s; wait := wait s;
     aborted := aborted s; reports := reports s |}.

Definition set_saveto (s : state) (x : bytes) : state :=
  {| cmd := cmd s; source := source s; ipipe := ipipe s; workers := workers s;
     opipe := opipe s; saveto := x; wait := wait s;
     aborted := aborted s; reports := reports s |}.

Definition set_wait (s : state) (x : bool) : state :=
  {| cmd := cmd s; source := source s; ipipe := ipipe s; workers := workers s;
     opipe := opipe s; saveto := saveto s; wait := x;
     aborted := aborted s; reports := reports s |}.

Definition set_aborted (s : state) (x : bool) : state :=
  {| cmd := cmd s; source := source s; ipipe := ipipe s; workers := workers s;
     opipe := opipe s; saveto := saveto s; wait := wait s;
     aborted := x; reports := reports s |}.

Definition set_reports (s : state) (x : list cmdDecodeStat) : state :=
  {| cmd := cmd s; source := source s; ipipe := ipipe s; workers := workers s;
     opipe := opipe s; saveto := saveto s; wait := wait s;
     aborted := aborted s; reports := x |}.

(** [l[i] = x] for [i] in range. *)
Fixpoint update {A} (i : nat) (x : A) (l : list A) : list A :=
  match l, i with
  | [], _ => []
  | _ :: t, O => x :: t
  | h :: t, S j => h :: update j x t
  end.

Definition all_exited (ws : list worker) : bool :=
  forallb (fun w => match w with Exited => true | Active _ => false end) ws.

(** The atomic steps of the goroutines of [Main]. *)
Inductive action : Type :=
  | LoaderRead (n : nat)   (* the loader's reader consumed [n] bytes *)
  | LoaderPush             (* the loader: [pipe <- entry] *)
  | LoaderClose            (* the loader at end of input: [close(pipe)] *)
  | WorkerRecv (i : nat)   (* worker [i]: [e := <-ipipe] and lines 144-231 *)
  | WorkerOp (i : nat)     (* worker [i]: line 232, then line 233 *)
  | WorkerExit (i : nat)   (* worker [i]: [range ipipe] ends; [group <- 0] *)
  | CloseOpipe             (* the barrier goroutine: [close(opipe)] *)
  | WriterRecv             (* the writer: lines 90-95 for one [s] *)
  | WriterDone             (* the writer: [range opipe] ends; [close(wait)] *)
  | Monitor.               (* the monitor: lines 105-115 *)

(** Modelled from the spec: the loader ([newRDBLoader] is not among the
    sources) adds the bytes it consumes to [rbytes], pushes each record it
    frames onto the bounded input queue in stream order and closes the queue
    at end of input. *)
Definition loader_step (a : action) (s : state) : option state :=
  match a with
  | LoaderRead n =>
      if closed (ipipe s) then None
      else Some (set_cmd s {| rbytes := atomic2.Add (rbytes (cmd s)) (Z.of_nat n);
                              wbytes := wbytes (cmd s);
                              nentry := nentry (cmd s) |})
  | LoaderPush =>
      match source s with
      | [] => None
      | e :: rest =>
          match chan_send (ipipe s) e with
          | Some c => Some (set_ipipe (set_source s rest) c)
          | None => None
          end
      end
  | LoaderClose =>
      match source s with
      | [] => if closed (ipipe s) then None
              else Some (set_ipipe s (chan_close (ipipe s)))
      | _ :: _ => None
      end
  | _ => None
  end.

(** One step of worker [i]. *)
Definition worker_step (a : action) (s : state) : option state :=
  match a with
  | WorkerRecv i =>
      match nth_error (workers s) i, chan_recv (ipipe s) with
      | Some (Active []), Some (e, c) =>
          match iteration e with
          | Ok ops => Some (set_workers (set_ipipe s c)
                                        (update i (Active ops) (workers s)))
          | Fatal _ => Some (set_aborted (set_ipipe s c) true)
          end
      | _, _ => None
      end
  | WorkerOp i =>
      match nth_error (workers s) i with
      | Some (Active (Incr :: ops)) =>
          Some (set_workers
                  (set_cmd s {| rbytes := rbytes (cmd s);
                                wbytes := wbytes (cmd s);
                                nentry := atomic2.Incr (nentry (cmd s)) |})
                  (update i (Active ops) (workers s)))
      | Some (Active (Send b :: ops)) =>
          match chan_send (opipe s) b with
          | Some c => Some (set_workers (set_opipe s c)
                                        (update i (Active ops) (workers s)))
          | None => None
          end
      | _ => None
      end
  | WorkerExit i =>
      match nth_error (workers s) i with
      | Some (Active []) =>
          if chan_drained (ipipe s)
          then Some (set_workers s (update i Exited (workers s)))
          else None
      | _ => None
      end
  | _ => None
  end.

(** The barrier goroutine, the writer goroutine and the monitor loop. An
    iteration of the writer's loop (lines 90-96) is one step here, taken when
    its string has reached the destination, and the destination accepts every
    write. [wstep] below takes the writer statement by statement, with the
    states between the addition to [wbytes] and the write, and with the write
    errors. *)
Definition main_step (a : action) (s : state) : option state :=
  match a with
  | CloseOpipe =>
      if all_exited (workers s) && negb (closed (opipe s))
      then Some (set_opipe s (chan_close (opipe s)))
      else None
  | WriterRecv =>
      if wait s then None else
      match chan_recv (opipe s) with
      | Some (str, c) =>
          Some (set_saveto
                  (set_opipe
                     (set_cmd s {| rbytes := rbytes (cmd s);
                                   wbytes := atomic2.Add (wbytes (cmd s)) (len str);
                                   nentry := nentry (cmd s) |})
                     c)
                  (saveto s ++ str))
      | None => None
      end
  | WriterDone =>
      if chan_drained (opipe s) && negb (wait s)
      then Some (set_wait s true)
      else None
  | Monitor => Some (set_reports s (reports s ++ [Stat (cmd s)]))
  | _ => None
  end.

(** A step of the pipeline; nothing runs once the run was torn down. *)
Definition step (a : action) (s : state) : option state :=
  if aborted s then None else
  match a with
  | LoaderRead _ | LoaderPush | LoaderClose => loader_step a s
  | WorkerRecv _ | WorkerOp _ | WorkerExit _ => worker_step a s
  | CloseOpipe | WriterRecv | WriterDone | Monitor => main_step a s
  end.

(** A schedule run from [s]. *)
Fixpoint run (sched : list action) (s : state) : option state :=
  match sched with
  | [] => Some s
  | a :: sched' =>
      match step a s with
      | Some s' => run sched' s'
      | None => None
      end
  end.

(** [Main] with [args.parallel = P] on a source holding the records [src]:
    both queues have capacity [P * 32], and [P] workers are started. *)
Definition init (P : nat) (src : list rdb.BinEntry) : state :=
  {| cmd := {| rbytes := 0; wbytes := 0; nentry := 0 |};
     source := src;
     ipipe := make_chan rdb.BinEntry (P * 32);
     workers := repeat (Active []) P;
     opipe := make_chan bytes (P * 32);
     saveto := [];
     wait := false;
     aborted := false;
     reports := [] |}.

(** The run is complete when the writer has signalled on [wait]. *)
Definition completed (s : state) : Prop := wait s = true.

(** A record is valid when its iteration does not abort. *)
Definition valid (e : rdb.BinEntry) : Prop :=
  exists ops, iteration e = Ok ops.

End Decoder.

Arguments buf {A} c.
Arguments cap {A} c.
Arguments closed {A} c.

(* ------------------------------------------------------------------ *)
(** ** Concrete collaborators for running the model on examples *)

(** A small stand-in for the number formatter: sign, mantissa, [e], exponent. *)
Definition sample_formatFloat (s : bool) (m : positive) (e : Z) : bytes :=
  (if s then [x2d] else []) ++ json.formatUint (Npos m) ++ [x65] ++ json.formatInt e.

Definition sample_score (c : byte) : spec_float :=
  if byte_eqb c x00 then S754_zero false
  else if byte_eqb c xff then S754_infinity false
  else S754_finite false (Pos.of_nat (N.to_nat (Byte.to_N c))) 0.

(** A small stand-in for the payload decoder: the first byte of the payload
    selects the kind, every further byte is one element. *)
Definition sample_DecodeDump (v : bytes) : option rdb.object :=
  match v with
  | x00 :: r => Some (rdb.String r)
  | x01 :: r => Some (rdb.List (map (fun c => [c]) r))
  | x02 :: r => Some (rdb.Hash (map (fun c => {| rdb.Field := [c]; rdb.HValue := [c] |}) r))
  | x03 :: r => Some (rdb.Set_ (map (fun c => [c]) r))
  | x04 :: r => Some (rdb.ZSet (map (fun c => {| rdb.Member := [c];
                                                 rdb.Score := sample_score c |}) r))
  | x05 :: _ => Some rdb.Other
  | _ => None
  end.

Definition sample_entry (key : string) (payload : bytes) : rdb.BinEntry :=
  {| rdb.DB := 0; rdb.Key := lit key; rdb.ExpireAt := 0; rdb.Value := payload |}.

(** JSON text written with ['] for the double quote. *)
Definition jsonlit (s : string) : bytes :=
  map (fun c => if byte_eqb c x27 then x22 else c) (lit s).

(* ------------------------------------------------------------------ *)
(** ** Notions used to state the properties *)

(** What [toText] writes for one byte. *)
Definition sanitize (c : byte) : byte :=
  if (35 <=? byte_val c) && (byte_val c <=? 126) then c else x2e.


(** No byte of [s] is a newline. *)
Definition one_line (s : bytes) : Prop := Forall (fun c => is_newline c = false) s.

(** A JSON text followed by the newline of [Fprintf_line]. *)
Definition terminated (j : bytes) : bytes := j ++ [ch_newline].

(** The elements of [obj] with their positions, counted from [i]. *)
Definition indexed {A} (i : nat) (obj : list A) : list (nat * A) :=
  combine (seq i (length obj)) obj.

(** A finite [float64]: neither an infinity nor NaN. *)
Definition is_finite (f : spec_float) : bool :=
  match f with
  | S754_infinity _ | S754_nan => false
  | _ => true
  end.

(** The elements of [o] are all ones [json.Marshal] accepts. *)
Definition serializable (o : rdb.object) : Prop :=
  match o with
  | rdb.Other => False
  | rdb.ZSet obj => Forall (fun ele => is_finite (rdb.Score ele) = true) obj
  | _ => True
  end.

(** The number of elements of a decoded value: one for a scalar. *)
Definition element_count (o : rdb.object) : nat :=
  match o with
  | rdb.String _ => 1
  | rdb.List obj => length obj
  | rdb.Hash obj => length obj
  | rdb.Set_ obj => length obj
  | rdb.ZSet obj => length obj
  | rdb.Other => 0
  end.

(** The element is one [json.Marshal] accepts. *)
Definition json_ok (x : element) : Prop :=
  match x with
  | EZSet ele => is_finite (rdb.Score ele) = true
  | _ => True
  end.

(** The operation is [cmd.nentry.Incr()]. *)
Definition is_incr (o : op) : bool :=
  match o with Incr => true | Send _ => false end.

(** The increments a worker still has to perform. *)
Definition pending_incr (w : worker) : nat :=
  match w with
  | Active ops => length (filter is_incr ops)
  | Exited => 0
  end.

(** The increments all workers together still have to perform. *)
Definition pending_total (ws : list worker) : nat := list_sum (map pending_incr ws).

(** Records not yet counted: still in the source, queued on [ipipe], or
    received by a worker that has not yet performed its increment. *)
Definition outstanding (s : state) : nat :=
  (length (source s) + length (buf (ipipe s)) + pending_total (workers s))%nat.

(** What holds of every state of a run over [N] records that was not torn
    down. *)
Record inv (N : nat) (s : state) : Prop := {
  inv_count : exists done : nat,
      (done + outstanding s = N)%nat /\
      nentry (cmd s) = int64.wrap (Z.of_nat done);
  inv_ipipe : closed (ipipe s) = true -> source s = [];
  inv_exit : In Exited (workers s) -> chan_drained (ipipe s) = true;
  inv_opipe : closed (opipe s) = true -> all_exited (workers s) = true;
  inv_wait : wait s = true -> closed (opipe s) = true
}.

(** A state is good when it satisfies [inv], or the run was torn down before
    the writer signalled completion. *)
Definition good (N : nat) (s : state) : Prop :=
  (aborted s = true /\ wait s = false) \/ (aborted s = false /\ inv N s).

(** The loader, worker 0 and the writer take one record through the
    pipeline. *)
Definition one_record : list action :=
  [LoaderPush; WorkerRecv 0; WorkerOp 0; WorkerOp 0; WriterRecv].

(** End of input: the loader closes the queue, the workers return in turn,
    the barrier closes the output queue and the writer signals. *)
Definition shutdown (P : nat) : list action :=
  [LoaderClose] ++ map WorkerExit (seq 0 P) ++ [CloseOpipe; WriterDone].

(** The schedule that takes [n] records through the pipeline one after the
    other and then shuts it down. *)
Definition sequential (n P : nat) : list action :=
  concat (repeat one_record n) ++ shutdown P.




(** A list record with the elements ["a"] and ["b"]. *)
Definition list_ab : rdb.BinEntry := sample_entry "mylist" (x01 :: lit "ab").

(** A scalar record: key ["foo"], value ["bar"]. *)
Definition foo_bar : rdb.BinEntry := sample_entry "foo" (x00 :: lit "bar").

(** A sorted set with one member, of score [+Inf], and a record holding it. *)
Definition zset_inf : rdb.object :=
  rdb.ZSet [{| rdb.Member := [xff]; rdb.Score := S754_infinity false |}].

Definition zset_inf_entry : rdb.BinEntry := sample_entry "zs" [x04; xff].

(** A record with an empty list. *)
Definition empty_list : rdb.BinEntry := sample_entry "nil" [x01].

(** A record whose payload the decoder rejects. *)
Definition corrupt : rdb.BinEntry := sample_entry "bad" [xff].

(** The pipeline with [P] workers at rest, the record [e] queued on [ipipe]. *)
Definition queued (P : nat) (e : rdb.BinEntry) : state :=
  set_ipipe (init P [])
            {| buf := [e]; cap := P * 32; closed := false |}.

(** The state a schedule leads to with the stand-in collaborators. *)
Definition sample_run (sched : list action) (s : state) : state :=
  match run sample_DecodeDump sample_formatFloat sched s with
  | Some s' => s'
  | None => s
  end.

(** Two workers, [list_ab] received and counted by worker 0, not yet sent. *)
Definition counted_state : state :=
  Eval vm_compute in
    sample_run [LoaderPush; WorkerRecv 0; WorkerOp 0] (init 2 [list_ab; foo_bar]).

(** The same run one step later: worker 0 has sent its text. *)
Definition sent_state : state :=
  Eval vm_compute in
    sample_run [LoaderPush; WorkerRecv 0; WorkerOp 0; WorkerOp 0]
               (init 2 [list_ab; foo_bar]).

(* ------------------------------------------------------------------ *)
(** ** The rest of [Main]: paths, status line, monitor loop *)

(** [fmt]'s integer verbs as [Main] uses them. *)
Module fmt.

(** [%d] of an integer: sign and decimal digits. *)
Definition d (i : Z) : bytes := json.formatInt i.

(** The padding of a text [s] to the width [w]. *)
Definition padding (w : nat) (s : bytes) : bytes := repeat x20 (w - length s).

(** [%<w>d]: right-justified in a field of width [w]. *)
Definition dw (w : nat) (i : Z) : bytes := padding w (d i) ++ d i.

(** [%-<w>d]: left-justified in a field of width [w]. *)
Definition dl (w : nat) (i : Z) : bytes := d i ++ padding w (d i).

End fmt.

(** [x * y] on [int64]. *)
Definition mul64 (x y : Z) : Z := int64.wrap (x * y).

(** [x / y] on [int64]: truncated, a zero divisor being a run-time panic. *)
Definition div64 (x y : Z) : result Z :=
  if y =? 0 then Fatal "integer divide by zero"
  else Ok (int64.wrap (Z.quot x y)).

(** Lines 106-114: the text handed to [log.Info], for the source size [nsize]
    and the sampled counters. *)
Definition statusLine (nsize : Z) (stat : cmdDecodeStat) : result bytes :=
  total <- (if negb (nsize =? 0)
            then pct <- div64 (mul64 100 (stat_rbytes stat)) nsize ;;
                 Ok (lit "total = " ++ fmt.d nsize ++ lit " - " ++
                     fmt.dw 12 (stat_rbytes stat) ++ lit " [" ++
                     fmt.dw 3 pct ++ lit "%]")
            else Ok (lit "total = " ++ fmt.dw 12 (stat_rbytes stat))) ;;
  Ok (lit "decode: " ++ total ++
      lit "  write=" ++ fmt.dl 12 (stat_wbytes stat) ++
      lit "  entry=" ++ fmt.dl 12 (stat_nentry stat)).

(** Which case of the [select] of line 100 fired. *)
Inductive wake : Type :=
  | WaitClosed      (* [case <-wait] *)
  | Tick.           (* [case <-time.After(time.Second)] *)

(** Lines 99-117: the monitor loop over the wake-ups it gets, each with the
    counters as they are when [cmd.Stat()] reads them; the lines logged so
    far. With no wake-up left the loop is blocked in [select]. *)
Fixpoint monitorLoop (nsize : Z) (wakes : list (wake * cmdDecode))
  : result (list bytes) :=
  match wakes with
  | [] => Ok []
  | (w, c) :: rest =>
      line <- statusLine nsize (Stat c) ;;
      match w with
      | WaitClosed => Ok [line; lit "decode: done"]
      | Tick => more <- monitorLoop nsize rest ;; Ok (line :: more)
      end
  end.

(** Lines 38-44: an empty path stands for the standard stream. *)
Definition orDefault (path dflt : string) : string :=
  if (String.length path =? 0)%nat then dflt else path.

(** What [readin] or [saveto] is bound to. *)
Inductive stream : Type :=
  | Std                      (* [os.Stdin], [os.Stdout] *)
  | File (path : string).    (* [openReadFile], [openWriteFile] *)

(** Lines 48-55: the source and its size; [fileSize] is the size
    [openReadFile] reports. *)
Definition readinOf (fileSize : string -> Z) (input : string) : stream * Z :=
  let input := orDefault input "/dev/stdin" in
  if negb (String.eqb input "/dev/stdin")
  then (File input, fileSize input)
  else (Std, 0).

(** Lines 57-63: the destination. *)
Definition savetoOf (output : string) : stream :=
  let output := orDefault output "/dev/stdout" in
  if negb (String.eqb output "/dev/stdout") then File output else Std.

(* ------------------------------------------------------------------ *)
(** ** Notions used to state further properties of the pipeline *)

(** The strings among a worker's operations. *)
Definition sends (ops : list op) : list bytes :=
  flat_map (fun o => match o with Send b => [b] | Incr => [] end) ops.

(** The strings a worker still has to push. *)
Definition pending_sends (w : worker) : list bytes :=
  match w with
  | Active ops => sends ops
  | Exited => []
  end.

(** A step of the data path: anything but a read of the loader's reader and
    the monitor. *)
Definition is_work (a : action) : bool :=
  match a with
  | LoaderRead _ | Monitor => false
  | _ => true
  end.

Definition op_weight (o : op) : nat :=
  match o with Incr => 1 | Send _ => 3 end.

Definition worker_weight (w : worker) : nat :=
  match w with
  | Active ops => S (list_sum (map op_weight ops))
  | Exited => 0
  end.

(** The work left in a state: every step of the data path lowers it. *)
Definition work_left (s : state) : nat :=
  (6 * length (source s) + 5 * length (buf (ipipe s)) +
   list_sum (map worker_weight (workers s)) +
   2 * length (buf (opipe s)) +
   (if closed (ipipe s) then 0 else 1) +
   (if closed (opipe s) then 0 else 1) +
   (if wait s then 0 else 1))%nat.

(** The queue elements the record [e] gives rise to: none if its iteration
    aborts. *)
Definition record_texts (DecodeDump : bytes -> option rdb.object)
           (formatFloat : bool -> positive -> Z -> bytes)
           (e : rdb.BinEntry) : list bytes :=
  match iteration DecodeDump formatFloat e with
  | Ok ops => sends ops
  | Fatal _ => []
  end.

(** The shape of the pipeline started with [P] workers: the number of
    workers, and both queues within their capacity [P * 32]. *)
Definition shaped (P : nat) (s : state) : Prop :=
  length (workers s) = P /\
  cap (ipipe s) = (P * 32)%nat /\ cap (opipe s) = (P * 32)%nat /\
  (length (buf (ipipe s)) <= P * 32)%nat /\
  (length (buf (opipe s)) <= P * 32)%nat.

(** The order in which the workers give up is as [Main] needs it: the output
    queue is closed only when all workers have returned, a worker returns
    only when the input queue is closed and drained, and the input queue is
    closed only at end of input. *)
Definition closing (s : state) : Prop :=
  (closed (opipe s) = true -> all_exited (workers s) = true) /\
  (In Exited (workers s) -> closed (ipipe s) = true /\ buf (ipipe s) = []) /\
  (closed (ipipe s) = true -> source s = []) /\
  (wait s = true -> closed (opipe s) = true /\ buf (opipe s) = []).

(** The queue elements on their way to the writer, in pipeline order from
    the writer's end: queued on [opipe], held by a worker, still to come from
    the records queued on [ipipe] or left in the source. *)
Definition in_flight (DecodeDump : bytes -> option rdb.object)
           (formatFloat : bool -> positive -> Z -> bytes)
           (s : state) : list bytes :=
  buf (opipe s) ++ flat_map pending_sends (workers s) ++
  flat_map (record_texts DecodeDump formatFloat) (buf (ipipe s) ++ source s).

(** How often the text [x] occurs among the texts [l]. *)
Definition occurrences (x : bytes) (l : list bytes) : nat :=
  count_occ (list_eq_dec Byte.byte_eq_dec) l x.

(** What holds of the texts in every state that was not torn down: the
    destination holds whole queue elements, and these together with the ones
    in flight are the ones the records give rise to. *)
Definition accounted (DecodeDump : bytes -> option rdb.object)
           (formatFloat : bool -> positive -> Z -> bytes)
           (src : list rdb.BinEntry) (s : state) : Prop :=
  aborted s = true \/
  exists written,
    saveto s = concat written /\
    forall x,
      (occurrences x written + occurrences x (in_flight DecodeDump formatFloat s))%nat =
      occurrences x (flat_map (record_texts DecodeDump formatFloat) src).

(** With a single worker the pipeline is a queue: what was written, followed
    by what is in flight, is the text of the records in stream order. *)
Definition in_order (DecodeDump : bytes -> option rdb.object)
           (formatFloat : bool -> positive -> Z -> bytes)
           (src : list rdb.BinEntry) (s : state) : Prop :=
  aborted s = true \/
  saveto s ++ concat (in_flight DecodeDump formatFloat s) =
  concat (flat_map (record_texts DecodeDump formatFloat) src).

(** The status line of the counters [c]; the empty text stands for a
    failure of [statusLine], which does not occur. *)
Definition status (nsize : Z) (c : cmdDecode) : bytes :=
  match statusLine nsize (Stat c) with
  | Ok line => line
  | Fatal _ => []
  end.

(** The two sample records taken through the pipeline, to completion, by two
    workers and by one, and the first of these runs followed by a status
    sample. *)
Definition final_state : state :=
  Eval vm_compute in sample_run (sequential 2 2) (init 2 [list_ab; foo_bar]).

Definition final_state_single : state :=
  Eval vm_compute in sample_run (sequential 2 1) (init 1 [list_ab; foo_bar]).

Definition reported_state : state :=
  Eval vm_compute in
    sample_run (sequential 2 2 ++ [Monitor]) (init 2 [list_ab; foo_bar]).

(* ------------------------------------------------------------------ *)
(** ** The writer goroutine statement by statement (decode.go, lines 88-97) *)

(** Where the writer is in its loop. *)
Inductive wphase : Type :=
  | AtHead                   (* at [for s := range opipe], line 90 *)
  | Received (s : bytes)     (* [s] was taken from [opipe] *)
  | Counted (s : bytes)      (* after [cmd.wbytes.Add(int64(len(s)))], line 91 *)
  | Buffered (rest : bytes)  (* after [writer.WriteString(s)], lines 92-94;
                                [rest] is what the buffered writer still holds *)
  | Failed                   (* a write error was fatal *)
  | Returned.                (* [range opipe] ended; [close(wait)] *)

(** The counter, what has reached the destination, and the phase. *)
Record wstate : Type := {
  w_wbytes : atomic2.Int64;
  w_saveto : bytes;
  w_phase : wphase
}.

(** What happens next to the writer. [Go k] lets the next statement succeed;
    for [WriteString] the buffered writer hands the first [k] bytes of the
    string on to the destination at once (none when the string fits its
    buffer). [Fail k] lets the destination fail after it took [k] more
    bytes. *)
Inductive wevent : Type :=
  | Recv (s : bytes)
  | Closed
  | Go (k : nat)
  | Fail (k : nat).

(** Modelled from the spec: [flushWriter] (not among the sources) flushes the
    buffered writer, a failure being fatal like that of [WriteString]. *)
Definition wstep (ev : wevent) (st : wstate) : option wstate :=
  match ev, w_phase st with
  | Recv s, AtHead =>
      Some {| w_wbytes := w_wbytes st; w_saveto := w_saveto st;
              w_phase := Received s |}
  | Closed, AtHead =>
      Some {| w_wbytes := w_wbytes st; w_saveto := w_saveto st;
              w_phase := Returned |}
  | Go _, Received s =>
      Some {| w_wbytes := atomic2.Add (w_wbytes st) (len s);
              w_saveto := w_saveto st;
              w_phase := Counted s |}
  | Go k, Counted s =>
      Some {| w_wbytes := w_wbytes st;
              w_saveto := w_saveto st ++ firstn k s;
              w_phase := Buffered (skipn k s) |}
  | Fail k, Counted s =>
      Some {| w_wbytes := w_wbytes st;
              w_saveto := w_saveto st ++ firstn k s;
              w_phase := Failed |}
  | Go _, Buffered rest =>
      Some {| w_wbytes := w_wbytes st;
              w_saveto := w_saveto st ++ rest;
              w_phase := AtHead |}
  | Fail k, Buffered rest =>
      Some {| w_wbytes := w_wbytes st;
              w_saveto := w_saveto st ++ firstn k rest;
              w_phase := Failed |}
  | _, _ => None
  end.

Fixpoint wrun (evs : list wevent) (st : wstate) : option wstate :=
  match evs with
  | [] => Some st
  | ev :: evs' =>
      match wstep ev st with
      | Some st' => wrun evs' st'
      | None => None
      end
  end.



(* ------------------------------------------------------------------ *)
(** ** Kinds of steps and what bounds them *)

Definition is_push (a : action) : bool :=
  match a with LoaderPush => true | _ => false end.

Definition is_recv (a : action) : bool :=
  match a with WorkerRecv _ => true | _ => false end.

Definition is_op (a : action) : bool :=
  match a with WorkerOp _ => true | _ => false end.

Definition is_exit (a : action) : bool :=
  match a with WorkerExit _ => true | _ => false end.

Definition is_write (a : action) : bool :=
  match a with WriterRecv => true | _ => false end.

Definition is_close_ipipe (a : action) : bool :=
  match a with LoaderClose => true | _ => false end.

Definition is_close_opipe (a : action) : bool :=
  match a with CloseOpipe => true | _ => false end.

Definition is_close_wait (a : action) : bool :=
  match a with WriterDone => true | _ => false end.

(** How often a step of kind [k] occurs in a schedule. *)
Definition count_steps (k : action -> bool) (sched : list action) : nat :=
  length (filter k sched).

(** The records not yet received by a worker. *)
Definition to_receive (s : state) : nat :=
  (length (source s) + length (buf (ipipe s)))%nat.

Definition pending_ops (w : worker) : nat :=
  match w with Active ops => length ops | Exited => 0 end.

Definition pending_send_count (w : worker) : nat :=
  match w with Active ops => length (sends ops) | Exited => 0 end.

Definition running (w : worker) : nat :=
  match w with Active _ => 1 | Exited => 0 end.

(** The operations the workers have yet to perform. *)
Definition ops_left (s : state) : nat :=
  (2 * to_receive s + list_sum (map pending_ops (workers s)))%nat.

(** The strings the writer has yet to receive. *)
Definition writes_left (s : state) : nat :=
  (to_receive s + list_sum (map pending_send_count (workers s)) +
   length (buf (opipe s)))%nat.

(** The workers that have not returned. *)
Definition workers_left (s : state) : nat :=
  list_sum (map running (workers s)).

Definition open_flag (b : bool) : nat := if b then 0 else 1.

(* ------------------------------------------------------------------ *)
(** ** More concrete states *)


(** [sent_state] after the writer has handled the text of [list_ab]. *)
Definition written_state : state :=
  Eval vm_compute in
    sample_run [LoaderPush; WorkerRecv 0; WorkerOp 0; WorkerOp 0; WriterRecv]
               (init 2 [list_ab; foo_bar]).



(** A schedule with status samples and reads of the loader's reader among
    the steps of the data path, and the state it ends in. *)
Definition sampled_schedule : list action :=
  [LoaderRead 4096; Monitor] ++ one_record ++ [Monitor; LoaderRead 100] ++
  one_record ++ [Monitor] ++ shutdown 2 ++ [Monitor].

Definition sampled_final_state : state :=
  Eval vm_compute in sample_run sampled_schedule (init 2 [list_ab; foo_bar]).


(* ================================================================== *)
(** * Properties *)

(* ------------------------------------------------------------------ *)
(** ** toText *)

Lemma toText_step_sanitize b c : toText_step b c = b ++ [sanitize c].
Proof.
  unfold toText_step, sanitize, printable.
  change (byte_val ch_hash) with 35. change (byte_val ch_tilde) with 126.
  destruct ((35 <=? byte_val c) && (byte_val c <=? 126)); reflexivity.
Qed.

Lemma toText_fold p : forall b, fold_left toText_step p b = b ++ map sanitize p.
Proof.
  induction p as [|c p IH]; intros b; simpl.
  - now rewrite app_nil_r.
  - rewrite IH, toText_step_sanitize, <- app_assoc. reflexivity.
Qed.

Lemma toText_map p : toText p = map sanitize p.
Proof. unfold toText. now rewrite toText_fold. Qed.

Lemma sanitize_idem c : sanitize (sanitize c) = sanitize c.
Proof.
  unfold sanitize.
  destruct ((35 <=? byte_val c) && (byte_val c <=? 126)) eqn:E.
  - now rewrite E.
  - reflexivity.
Qed.

Lemma sanitize_range c : 35 <= byte_val (sanitize c) <= 126.
Proof.
  unfold sanitize.
  destruct ((35 <=? byte_val c) && (byte_val c <=? 126)) eqn:E.
  - apply andb_true_iff in E. destruct E as [E1 E2].
    apply Z.leb_le in E1. apply Z.leb_le in E2. lia.
  - vm_compute. split; discriminate.
Qed.

(** C3. For every byte sequence [p], [toText p] is as long as [p], and at every
    position it holds [p[i]] when that byte lies in ['#'..'~'] (35..126) and
    ['.'] otherwise. *)
Theorem toText_length_and_bytes (p : bytes) :
  length (toText p) = length p /\
  forall i : nat,
    nth_error (toText p) i =
    option_map (fun c => if (35 <=? byte_val c) && (byte_val c <=? 126)
                         then c else ch_dot)
               (nth_error p i).
Proof.
  rewrite toText_map. split.
  - apply length_map.
  - intros i. rewrite nth_error_map. reflexivity.
Qed.

(** C9. [toText] is idempotent: every byte it writes lies in the range it
    keeps. *)
Theorem toText_idempotent (p : bytes) : toText (toText p) = toText p.
Proof.
  rewrite !toText_map, map_map.
  apply map_ext. intros c. apply sanitize_idem.
Qed.

(** Every byte of a sanitized text is ASCII. *)
Lemma toText_ascii p : Forall (fun c => byte_val c < 128) (toText p).
Proof.
  rewrite toText_map. apply Forall_forall. intros c Hc.
  apply in_map_iff in Hc. destruct Hc as [x [<- _]].
  pose proof (sanitize_range x). lia.
Qed.

(* ------------------------------------------------------------------ *)
(** ** Base64 *)

Lemma byte_val_range c : 0 <= byte_val c < 256.
Proof.
  unfold byte_val. pose proof (Byte.to_N_bounded c). lia.
Qed.

Lemma land_255 v : Z.land v 255 = v mod 256.
Proof. change 255 with (Z.ones 8). now rewrite Z.land_ones by lia. Qed.

Lemma land_63 v : Z.land v 63 = v mod 64.
Proof. change 63 with (Z.ones 6). now rewrite Z.land_ones by lia. Qed.

Lemma byte_of_val_mod v c : v mod 256 = byte_val c -> byte_of_val v = c.
Proof.
  intros H. unfold byte_of_val. rewrite land_255, H.
  unfold byte_val. rewrite N2Z.id, Byte.of_to_N. reflexivity.
Qed.

(** Bitwise or of a multiple of [2^n] with a number below [2^n] is their sum. *)
Lemma lor_disjoint_add a b n :
  0 <= n -> 0 <= b < 2 ^ n -> a mod 2 ^ n = 0 -> Z.lor a b = a + b.
Proof.
  intros Hn Hb Ha.
  rewrite <- Z.lxor_lor, <- Z.add_nocarry_lxor; trivial.
  all: apply Z.bits_inj'; intros i Hi; rewrite Z.land_spec, Z.bits_0.
  all: destruct (Z.lt_ge_cases i n) as [Hlt|Hge].
  1,3: rewrite <- (Z.mod_pow2_bits_low a n i), Ha, Z.bits_0 by lia; reflexivity.
  all: destruct (Z.eq_dec b 0) as [->|Hb0];
       [ rewrite Z.bits_0; apply andb_false_r | ].
  all: rewrite (Z.bits_above_log2 b i), andb_false_r; trivial; try lia.
  all: assert (Z.log2 b < n) by (apply Z.log2_lt_pow2; lia); lia.
Qed.

Module Base64Facts.
Import Base64.

Lemma sextet_range v s : 0 <= sextet v s < 64.
Proof. unfold sextet. rewrite land_63. apply Z.mod_pos_bound. lia. Qed.

Lemma decodeMap_enc i : 0 <= i < 64 -> decodeMap (enc i) = Some i.
Proof.
  intros Hi.
  assert (Hall : forallb (fun n => match decodeMap (enc (Z.of_nat n)) with
                                   | Some j => j =? Z.of_nat n
                                   | None => false
                                   end) (seq 0 64) = true) by (vm_compute; reflexivity).
  rewrite forallb_forall in Hall.
  specialize (Hall (Z.to_nat i)).
  rewrite Z2Nat.id in Hall by lia.
  destruct (decodeMap (enc i)) as [j|].
  - assert (Hj : (j =? i) = true) by (apply Hall, in_seq; lia).
    apply Z.eqb_eq in Hj. now subst.
  - assert (false = true) by (apply Hall, in_seq; lia). discriminate.
Qed.

Lemma decodeMap_pad : decodeMap ch_pad = None.
Proof. reflexivity. Qed.

Lemma decodeMap_sextet v s : decodeMap (enc (sextet v s)) = Some (sextet v s).
Proof. apply decodeMap_enc, sextet_range. Qed.

(** Shifts and masks of the quantum as arithmetic. *)
Lemma sextet_arith v s : 0 <= s -> sextet v s = (v / 2 ^ s) mod 64.
Proof. intros Hs. unfold sextet. now rewrite land_63, Z.shiftr_div_pow2. Qed.

Lemma pack3 x y z :
  0 <= x < 256 -> 0 <= y < 256 -> 0 <= z < 256 ->
  Z.lor (Z.lor (Z.shiftl x 16) (Z.shiftl y 8)) z = x * 65536 + y * 256 + z.
Proof.
  intros Hx Hy Hz. rewrite !Z.shiftl_mul_pow2 by lia.
  rewrite (lor_disjoint_add (x * 2 ^ 16) (y * 2 ^ 8) 16); try lia.
  - rewrite (lor_disjoint_add _ z 8); try lia.
    change (2 ^ 16) with (256 * 2 ^ 8).
    rewrite Z.mul_assoc, <- Z.mul_add_distr_r. apply Z.mod_mul. lia.
  - now rewrite Z.mod_mul by lia.
Qed.

Lemma pack4 d0 d1 d2 d3 :
  0 <= d0 < 64 -> 0 <= d1 < 64 -> 0 <= d2 < 64 -> 0 <= d3 < 64 ->
  Z.lor (Z.lor (Z.lor (Z.shiftl d0 18) (Z.shiftl d1 12)) (Z.shiftl d2 6)) d3
  = d0 * 262144 + d1 * 4096 + d2 * 64 + d3.
Proof.
  intros H0 H1 H2 H3. rewrite !Z.shiftl_mul_pow2 by lia.
  rewrite (lor_disjoint_add (d0 * 2 ^ 18) (d1 * 2 ^ 12) 18); try lia.
  - rewrite (lor_disjoint_add _ (d2 * 2 ^ 6) 12); try lia.
    + rewrite (lor_disjoint_add _ d3 6); try lia.
      change (2 ^ 18) with (4096 * 2 ^ 6). change (2 ^ 12) with (64 * 2 ^ 6).
      rewrite !Z.mul_assoc, <- !Z.mul_add_distr_r. apply Z.mod_mul. lia.
    + change (2 ^ 18) with (64 * 2 ^ 12).
      rewrite !Z.mul_assoc, <- !Z.mul_add_distr_r. apply Z.mod_mul. lia.
  - now rewrite Z.mod_mul by lia.
Qed.

Lemma pack3_two x y :
  0 <= x < 256 -> 0 <= y < 256 ->
  Z.lor (Z.shiftl x 16) (Z.shiftl y 8) = x * 65536 + y * 256.
Proof.
  intros Hx Hy. rewrite <- (Z.lor_0_r (Z.lor _ _)), pack3; lia.
Qed.

Lemma pack4_three d0 d1 d2 :
  0 <= d0 < 64 -> 0 <= d1 < 64 -> 0 <= d2 < 64 ->
  Z.lor (Z.lor (Z.shiftl d0 18) (Z.shiftl d1 12)) (Z.shiftl d2 6)
  = d0 * 262144 + d1 * 4096 + d2 * 64.
Proof.
  intros H0 H1 H2. rewrite <- (Z.lor_0_r (Z.lor _ _)), pack4; lia.
Qed.

Lemma pack4_two d0 d1 :
  0 <= d0 < 64 -> 0 <= d1 < 64 ->
  Z.lor (Z.shiftl d0 18) (Z.shiftl d1 12) = d0 * 262144 + d1 * 4096.
Proof.
  intros H0 H1.
  rewrite <- (Z.lor_0_r (Z.lor _ _)), <- (Z.shiftl_0_l 6), pack4_three; lia.
Qed.

(** The four sextets of a 24-bit quantum put it together again. *)
Lemma sextets_join v :
  0 <= v < 16777216 ->
  sextet v 18 * 262144 + sextet v 12 * 4096 + sextet v 6 * 64 + sextet v 0 = v.
Proof.
  intros Hv. rewrite !sextet_arith by lia.
  change (2 ^ 18) with 262144. change (2 ^ 12) with 4096.
  change (2 ^ 6) with 64. change (2 ^ 0) with 1.
  Z.div_mod_to_equations. lia.
Qed.

Lemma sextet0_zero v : v mod 64 = 0 -> sextet v 0 = 0.
Proof.
  intros H. rewrite sextet_arith by lia. change (2 ^ 0) with 1.
  now rewrite Z.div_1_r.
Qed.

Lemma sextet6_zero v : v mod 4096 = 0 -> sextet v 6 = 0.
Proof.
  intros H. rewrite sextet_arith by lia. change (2 ^ 6) with 64.
  Z.div_mod_to_equations. lia.
Qed.

(** The bytes of a quantum. *)
Lemma quantum_byte0 x y z :
  0 <= y < 256 -> 0 <= z < 256 ->
  byte_of_val (Z.shiftr (byte_val x * 65536 + y * 256 + z) 16) = x.
Proof.
  intros Hy Hz. apply byte_of_val_mod.
  pose proof (byte_val_range x) as Hx.
  rewrite Z.shiftr_div_pow2 by lia. change (2 ^ 16) with 65536.
  Z.div_mod_to_equations. lia.
Qed.

Lemma quantum_byte1 x y z :
  0 <= x < 256 -> 0 <= z < 256 ->
  byte_of_val (Z.shiftr (x * 65536 + byte_val y * 256 + z) 8) = y.
Proof.
  intros Hx Hz. apply byte_of_val_mod.
  pose proof (byte_val_range y) as Hy.
  rewrite Z.shiftr_div_pow2 by lia. change (2 ^ 8) with 256.
  Z.div_mod_to_equations. lia.
Qed.

Lemma quantum_byte2 x y z :
  0 <= x < 256 -> 0 <= y < 256 ->
  byte_of_val (x * 65536 + y * 256 + byte_val z) = z.
Proof.
  intros Hx Hy. apply byte_of_val_mod.
  pose proof (byte_val_range z) as Hz.
  Z.div_mod_to_equations. lia.
Qed.


Lemma enc_ascii i : 0 <= i < 64 -> byte_val (enc i) < 128.
Proof.
  intros Hi.
  assert (Hall : forallb (fun n => byte_val (enc (Z.of_nat n)) <? 128) (seq 0 64) = true)
    by (vm_compute; reflexivity).
  rewrite forallb_forall in Hall.
  specialize (Hall (Z.to_nat i)). rewrite Z2Nat.id in Hall by lia.
  apply Z.ltb_lt, Hall, in_seq. lia.
Qed.

(** Induction following the three-byte quanta of the encoder. *)
Lemma quanta_ind (P : bytes -> Prop) :
  P [] -> (forall a, P [a]) -> (forall a b, P [a; b]) ->
  (forall a b c rest, P rest -> P (a :: b :: c :: rest)) ->
  forall l, P l.
Proof.
  intros H0 H1 H2 H3 l.
  assert (H : P l /\ (forall a, P (a :: l)) /\ (forall a b, P (a :: b :: l))).
  { induction l as [|c l [IH0 [IH1 IH2]]].
    - auto.
    - repeat split; auto. }
  apply H.
Qed.


Lemma EncodeToString_ascii x :
  Forall (fun c => byte_val c < 128) (EncodeToString x).
Proof.
  induction x as [|a|a b|a b c rest IH] using quanta_ind;
    cbn [EncodeToString];
    repeat (apply Forall_cons; [ first [ apply enc_ascii, sextet_range
                                       | vm_compute; reflexivity ] | ]);
    auto.
Qed.



Lemma decodeQuanta_EncodeToString x :
  decodeQuanta (EncodeToString x) = Some x.
Proof.
  induction x as [|a|a b|a b c rest IH] using quanta_ind.
  - reflexivity.
  - pose proof (byte_val_range a) as Ha.
    cbn [EncodeToString decodeQuanta].
    rewrite !decodeMap_sextet, decodeMap_pad.
    cbn [byte_eqb andb]. change (Byte.eqb ch_pad ch_pad) with true. cbn [andb].
    rewrite pack4_two by apply sextet_range.
    rewrite Z.shiftl_mul_pow2 by lia. change (2 ^ 16) with 65536.
    pose proof (sextets_join (byte_val a * 65536)) as J.
    rewrite sextet0_zero, sextet6_zero in J
      by (Z.div_mod_to_equations; lia).
    replace (_ + _) with (byte_val a * 65536 + 0 * 256 + 0) by lia.
    unfold quantum_bytes. cbn [firstn].
    rewrite quantum_byte0 by lia. reflexivity.
  - pose proof (byte_val_range a) as Ha. pose proof (byte_val_range b) as Hb.
    cbn [EncodeToString decodeQuanta].
    rewrite !decodeMap_sextet, decodeMap_pad.
    cbn [byte_eqb andb]. change (Byte.eqb ch_pad ch_pad) with true. cbn [andb].
    rewrite pack4_three by apply sextet_range.
    rewrite pack3_two by assumption.
    pose proof (sextets_join (byte_val a * 65536 + byte_val b * 256)) as J.
    rewrite sextet0_zero in J by (Z.div_mod_to_equations; lia).
    replace (_ + _ + _) with (byte_val a * 65536 + byte_val b * 256 + 0) by lia.
    unfold quantum_bytes. cbn [firstn].
    rewrite quantum_byte0, quantum_byte1 by lia. reflexivity.
  - pose proof (byte_val_range a) as Ha. pose proof (byte_val_range b) as Hb.
    pose proof (byte_val_range c) as Hc.
    cbn [EncodeToString decodeQuanta].
    rewrite !decodeMap_sextet.
    rewrite pack4 by apply sextet_range.
    rewrite pack3 by assumption.
    rewrite sextets_join by lia.
    unfold quantum_bytes. cbn [firstn].
    rewrite quantum_byte0, quantum_byte1, quantum_byte2 by lia.
    rewrite IH. reflexivity.
Qed.

End Base64Facts.


Lemma toBase64_ascii x : Forall (fun c => byte_val c < 128) (toBase64 x).
Proof. apply Base64Facts.EncodeToString_ascii. Qed.

(* ------------------------------------------------------------------ *)
(** ** JSON text holds no raw newline *)

Lemma one_line_app s t : one_line s -> one_line t -> one_line (s ++ t).
Proof. intros Hs Ht. apply Forall_app. now split. Qed.

Lemma one_line_cons c s : is_newline c = false -> one_line s -> one_line (c :: s).
Proof. intros Hc Hs. now constructor. Qed.

Lemma one_line_nil : one_line [].
Proof. constructor. Qed.

Create HintDb one_line.
#[local] Hint Resolve one_line_app one_line_cons one_line_nil : one_line.

Module JsonFacts.
Import json.

Lemma encodeByte_one_line c : one_line (encodeByte c).
Proof.
  assert (H : forallb (fun b => negb (is_newline b)) (encodeByte c) = true)
    by (destruct c; reflexivity).
  rewrite forallb_forall in H. apply Forall_forall. intros b Hb.
  apply H in Hb. now destruct (is_newline b).
Qed.

Lemma encodeBytes_one_line s : one_line (flat_map encodeByte s).
Proof.
  induction s as [|c s IH]; simpl.
  - constructor.
  - apply one_line_app; [apply encodeByte_one_line | exact IH].
Qed.

Ltac split_one_line :=
  repeat first [ apply one_line_nil
               | apply one_line_cons; [reflexivity|]
               | apply encodeBytes_one_line
               | apply one_line_app ].

Lemma encodeString_one_line s : one_line (encodeString s).
Proof. unfold encodeString. split_one_line. Qed.

Lemma digits_one_line d : one_line (digits d).
Proof. induction d; simpl; auto with one_line. Qed.

Lemma formatUint_one_line n : one_line (formatUint n).
Proof. apply digits_one_line. Qed.

Lemma formatInt_one_line i : one_line (formatInt i).
Proof.
  unfold formatInt. destruct (i <? 0); auto using formatUint_one_line with one_line.
Qed.

Section WithFormat.

Variable formatFloat : bool -> positive -> Z -> bytes.
Hypothesis formatFloat_one_line : forall s m e, one_line (formatFloat s m e).

Lemma encodeValue_one_line v b :
  encodeValue formatFloat v = Some b -> one_line b.
Proof.
  destruct v as [n|i|s|f]; simpl; intros H.
  - injection H as <-. apply formatUint_one_line.
  - injection H as <-. apply formatInt_one_line.
  - injection H as <-. apply encodeString_one_line.
  - destruct f as [[|]|s| |s m e]; simpl in H; try discriminate;
      injection H as <-; auto with one_line.
Qed.

Lemma encodeFields_one_line o : forall first b,
  encodeFields formatFloat first o = Some b -> one_line b.
Proof.
  induction o as [|[name v] o IH]; intros first b H; cbn [encodeFields] in H.
  - injection H as <-. constructor.
  - destruct (encodeValue formatFloat v) as [bv|] eqn:Ev; [|discriminate].
    destruct (encodeFields formatFloat false o) as [rest|] eqn:Er; [|discriminate].
    injection H as <-.
    destruct first; unfold encodeString; split_one_line;
      first [ eapply encodeValue_one_line; eassumption
            | eapply IH; eassumption ].
Qed.

Lemma Marshal_one_line o b : Marshal formatFloat o = Some b -> one_line b.
Proof.
  unfold Marshal. destruct (encodeFields formatFloat true o) as [f|] eqn:E;
    [|discriminate].
  intros H. injection H as <-.
  split_one_line. eapply encodeFields_one_line; eassumption.
Qed.

End WithFormat.

End JsonFacts.

(* ------------------------------------------------------------------ *)
(** ** Lines *)

Lemma lines_from_one_line s : forall cur rest,
  one_line s ->
  lines_from cur (s ++ ch_newline :: rest) = (cur ++ s) :: lines_from [] rest.
Proof.
  induction s as [|c s IH]; intros cur rest Hs; simpl.
  - now rewrite app_nil_r.
  - inversion Hs as [|? ? Hc Hs']; subst. rewrite Hc.
    rewrite IH by assumption. now rewrite <- app_assoc.
Qed.

Lemma lines_concat js :
  Forall one_line js -> lines (concat (map terminated js)) = js.
Proof.
  unfold lines. induction 1 as [|j js Hj Hjs IH]; simpl.
  - reflexivity.
  - unfold terminated at 1. rewrite <- app_assoc. simpl.
    rewrite lines_from_one_line by assumption. now rewrite IH.
Qed.

Lemma count_lines_app s t : count_lines (s ++ t) = (count_lines s + count_lines t)%nat.
Proof. unfold count_lines. now rewrite filter_app, length_app. Qed.

Lemma count_lines_one_line s : one_line s -> count_lines s = 0%nat.
Proof.
  unfold count_lines. induction 1 as [|c s Hc Hs IH]; simpl.
  - reflexivity.
  - now rewrite Hc.
Qed.

Lemma count_lines_concat js :
  Forall one_line js -> count_lines (concat (map terminated js)) = length js.
Proof.
  induction 1 as [|j js Hj Hjs IH]; simpl.
  - reflexivity.
  - unfold terminated at 1. rewrite !count_lines_app, IH.
    rewrite count_lines_one_line by assumption. reflexivity.
Qed.

(* ------------------------------------------------------------------ *)
(** ** Flattening one record *)

Lemma indexed_cons {A} i (x : A) obj : indexed i (x :: obj) = (i, x) :: indexed (S i) obj.
Proof. reflexivity. Qed.

Lemma map_snd_indexed {A B} (g : A -> B) obj : forall i,
  map (fun p => g (snd p)) (indexed i obj) = map g obj.
Proof.
  induction obj as [|x obj IH]; intros i.
  - reflexivity.
  - rewrite indexed_cons. simpl. now rewrite IH.
Qed.

Lemma length_indexed {A} (obj : list A) : forall i, length (indexed i obj) = length obj.
Proof.
  intros i. unfold indexed. rewrite length_combine, length_seq. apply Nat.min_id.
Qed.

Lemma length_elements o : length (elements o) = element_count o.
Proof.
  destruct o; simpl; rewrite ?length_map; trivial.
  apply (length_indexed obj 0).
Qed.

Section FlattenFacts.

Variable formatFloat : bool -> positive -> Z -> bytes.

Lemma toJson_item_ok e x : json_ok x -> exists j, toJson formatFloat (item e x) = Ok j.
Proof.
  unfold toJson, json.Marshal.
  destruct x as [obj|i ele|ele|mem|ele]; intros H;
    unfold item, head_fields; cbn [app json.encodeFields json.encodeValue].
  1-4: eexists; reflexivity.
  simpl in H. destruct (rdb.Score ele) as [[|]|s| |s m x]; try discriminate;
    cbn [json.encodeFloat]; eexists; reflexivity.
Qed.

Lemma toJson_item_fatal e ele :
  is_finite (rdb.Score ele) = false ->
  toJson formatFloat (item e (EZSet ele)) = Fatal "encode to json failed".
Proof.
  unfold toJson, json.Marshal, item, head_fields.
  cbn [app json.encodeFields json.encodeValue].
  destruct (rdb.Score ele) as [[|]|s| |s m x]; try discriminate; reflexivity.
Qed.

(** A loop over [obj] whose elements all serialise appends their lines to the
    buffer, one after the other. *)
Lemma range_emit {A} (f : nat -> A -> element) e obj : forall i b,
  (forall p, In p (indexed i obj) -> json_ok (f (fst p) (snd p))) ->
  exists js,
    range (fun k x => emit formatFloat e (f k x)) i obj b = Ok (b ++ concat (map terminated js)) /\
    map Ok js = map (fun p => toJson formatFloat (item e (f (fst p) (snd p)))) (indexed i obj).
Proof.
  induction obj as [|x obj IH]; intros i b Hok.
  - exists []. simpl. now rewrite app_nil_r.
  - rewrite indexed_cons in Hok.
    destruct (toJson_item_ok e (f i x)) as [j Hj].
    { apply (Hok (i, x)). now left. }
    destruct (IH (S i) (Fprintf_line b j)) as [js [Hr Hm]].
    { intros p Hp. apply Hok. now right. }
    exists (j :: js). split.
    + cbn [range]. unfold emit at 1. rewrite Hj.
      cbn [bind]. rewrite Hr. unfold Fprintf_line, terminated. simpl.
      now rewrite <- !app_assoc.
    + rewrite indexed_cons. simpl. now rewrite Hj, Hm.
Qed.

Lemma rendered_one_line e xs js :
  (forall s m x, one_line (formatFloat s m x)) ->
  map Ok js = map (fun x => toJson formatFloat (item e x)) xs ->
  Forall one_line js.
Proof.
  intros Hfmt. revert js. induction xs as [|x xs IH]; intros [|j js] H;
    simpl in H; try discriminate; constructor.
  - injection H as Hj _. symmetry in Hj.
    unfold toJson in Hj.
    destruct (json.Marshal formatFloat (item e x)) as [b|] eqn:E; [|discriminate].
    injection Hj as ->. eapply JsonFacts.Marshal_one_line; eassumption.
  - injection H as _ H. now apply IH.
Qed.

(** The buffer a record is flattened to, as the lines of its elements. *)
Lemma flatten_rendered e o :
  serializable o ->
  exists js,
    flatten formatFloat e o = Ok (concat (map terminated js)) /\
    map Ok js = map (fun x => toJson formatFloat (item e x)) (elements o).
Proof.
  unfold flatten.
  destruct o as [obj|obj|obj|obj|obj|]; intros Hs; simpl in Hs.
  - destruct (toJson_item_ok e (EString obj) I) as [j Hj].
    exists [j]. split.
    + unfold emit. rewrite Hj. simpl.
      unfold Fprintf_line, terminated. simpl. now rewrite app_nil_r.
    + cbn [elements map]. now rewrite Hj.
  - destruct (range_emit EList e obj 0 []) as [js [Hr Hm]].
    { intros p _. exact I. }
    exists js. split; [exact Hr|].
    rewrite Hm. cbn [elements]. now rewrite map_map.
  - destruct (range_emit (fun _ => EHash) e obj 0 []) as [js [Hr Hm]].
    { intros p _. exact I. }
    exists js. split; [exact Hr|].
    rewrite Hm. cbn [elements].
    rewrite (map_snd_indexed (fun x => toJson formatFloat (item e (EHash x)))), map_map.
    reflexivity.
  - destruct (range_emit (fun _ => ESet) e obj 0 []) as [js [Hr Hm]].
    { intros p _. exact I. }
    exists js. split; [exact Hr|].
    rewrite Hm. cbn [elements].
    rewrite (map_snd_indexed (fun x => toJson formatFloat (item e (ESet x)))), map_map.
    reflexivity.
  - destruct (range_emit (fun _ => EZSet) e obj 0 []) as [js [Hr Hm]].
    { intros p Hp. simpl. rewrite Forall_forall in Hs. apply Hs.
      unfold indexed in Hp. destruct p as [k x]. now apply in_combine_r in Hp. }
    exists js. split; [exact Hr|].
    rewrite Hm. cbn [elements].
    rewrite (map_snd_indexed (fun x => toJson formatFloat (item e (EZSet x)))), map_map.
    reflexivity.
  - contradiction.
Qed.

(** A sorted set holding a score that is not finite cannot be flattened: the
    loop aborts at the first such element. *)
Lemma flatten_nonfinite_fatal e obj :
  Exists (fun ele => is_finite (rdb.Score ele) = false) obj ->
  flatten formatFloat e (rdb.ZSet obj) = Fatal "encode to json failed".
Proof.
  unfold flatten. generalize 0%nat, (@nil byte).
  induction obj as [|ele obj IH]; intros i b Hex.
  - inversion Hex.
  - cbn [range]. unfold emit at 1.
    destruct (is_finite (rdb.Score ele)) eqn:Hfin.
    + destruct (toJson_item_ok e (EZSet ele) Hfin) as [j ->]. cbn [bind].
      apply IH. inversion Hex as [? ? H|]; subst; [congruence|assumption].
    + now rewrite toJson_item_fatal.
Qed.

(** C1 (amended). A record whose elements all serialise (always for a scalar,
    a list, a hash and a set; for a sorted set when every score is finite) is
    flattened to as many lines as it has elements, one for a scalar, and the
    k-th line is the JSON text of the k-th element in the container's own
    order. *)
Theorem flatten_lines (e : rdb.BinEntry) (o : rdb.object) :
  (forall s m x, one_line (formatFloat s m x)) ->
  serializable o ->
  exists b,
    flatten formatFloat e o = Ok b /\
    count_lines b = element_count o /\
    length (lines b) = element_count o /\
    map Ok (lines b) = map (fun x => toJson formatFloat (item e x)) (elements o).
Proof.
  intros Hfmt Hs.
  destruct (flatten_rendered e o Hs) as [js [Hf Hm]].
  pose proof (rendered_one_line e _ _ Hfmt Hm) as Hone.
  assert (Hlen : length js = element_count o).
  { rewrite <- length_elements.
    rewrite <- (length_map Ok js), Hm. apply length_map. }
  exists (concat (map terminated js)).
  rewrite lines_concat, count_lines_concat by assumption.
  auto.
Qed.

End FlattenFacts.

(* ------------------------------------------------------------------ *)
(** ** int64 arithmetic *)

Lemma wrap_in_range z : int64.in_range z -> int64.wrap z = z.
Proof.
  unfold int64.in_range, int64.min, int64.max, int64.wrap. intros H.
  rewrite Z.mod_small; lia.
Qed.

Lemma wrap_add_l x y : int64.wrap (int64.wrap x + y) = int64.wrap (x + y).
Proof.
  unfold int64.wrap.
  replace ((x + 2 ^ 63) mod 2 ^ 64 - 2 ^ 63 + y + 2 ^ 63)
    with ((x + 2 ^ 63) mod 2 ^ 64 + y) by lia.
  rewrite Z.add_mod_idemp_l by lia.
  f_equal. f_equal. lia.
Qed.


Lemma Incr_wrap n : atomic2.Incr (int64.wrap (Z.of_nat n)) = int64.wrap (Z.of_nat (S n)).
Proof.
  unfold atomic2.Incr, atomic2.Add, int64.add. rewrite wrap_add_l.
  f_equal. lia.
Qed.

(* ------------------------------------------------------------------ *)
(** ** Lists of workers *)

Lemma update_length {A} (x : A) l : forall i, length (update i x l) = length l.
Proof.
  induction l as [|h t IH]; intros [|i]; simpl; auto.
Qed.

Lemma pending_total_update ws : forall i w w',
  nth_error ws i = Some w ->
  (pending_total (update i w' ws) + pending_incr w =
   pending_total ws + pending_incr w')%nat.
Proof.
  unfold pending_total.
  induction ws as [|h t IH]; intros [|i] w w' H; simpl in *; try discriminate.
  - injection H as ->. lia.
  - specialize (IH i w w' H). lia.
Qed.

Lemma in_update {A} (x y : A) l : forall i, In y (update i x l) -> y = x \/ In y l.
Proof.
  induction l as [|h t IH]; intros [|i] H; simpl in *; auto.
  - destruct H as [->|H]; auto.
  - destruct H as [->|H]; auto. destruct (IH i H); auto.
Qed.

Lemma all_exited_nth ws i w :
  all_exited ws = true -> nth_error ws i = Some w -> w = Exited.
Proof.
  unfold all_exited. rewrite forallb_forall. intros Hall Hn.
  apply nth_error_In in Hn. specialize (Hall w Hn). now destruct w.
Qed.

Lemma all_exited_pending ws : all_exited ws = true -> pending_total ws = 0%nat.
Proof.
  unfold pending_total. induction ws as [|[ops|] t IH]; simpl; intros H;
    try discriminate; auto.
Qed.

Lemma all_exited_in ws : ws <> [] -> all_exited ws = true -> In Exited ws.
Proof.
  destruct ws as [|[ops|] t]; simpl; intros Hne H; try discriminate; auto.
Qed.

(* ------------------------------------------------------------------ *)
(** ** The pipeline: counting records *)

Section PipelineFacts.

Variable DecodeDump : bytes -> option rdb.object.
Variable formatFloat : bool -> positive -> Z -> bytes.

Lemma iteration_inv e ops :
  iteration DecodeDump formatFloat e = Ok ops ->
  exists o b, DecodeDump (rdb.Value e) = Some o /\
              flatten formatFloat e o = Ok b /\ ops = [Incr; Send b].
Proof.
  unfold iteration. destruct (DecodeDump (rdb.Value e)) as [o|]; [|discriminate].
  destruct (flatten formatFloat e o) as [b|m] eqn:E; simpl; [|discriminate].
  intros H. injection H as <-. eauto.
Qed.

Lemma init_inv P src : inv (length src) (init P src).
Proof.
  split; simpl; try discriminate.
  - exists 0%nat. split; [|reflexivity].
    unfold outstanding, pending_total. simpl.
    assert (H : list_sum (map pending_incr (repeat (Active []) P)) = 0%nat).
    { induction P; simpl; auto. }
    rewrite H. lia.
  - intros H. apply repeat_spec in H. discriminate.
Qed.

Ltac break_match_hyp H :=
  match type of H with
  | context [match ?x with _ => _ end] => destruct x eqn:?; try discriminate H
  | context [if ?x then _ else _] => destruct x eqn:?; try discriminate H
  end.

Lemma chan_send_inv {A} (c c' : chan A) x :
  chan_send c x = Some c' ->
  closed c = false /\ buf c' = buf c ++ [x] /\ closed c' = false /\ cap c' = cap c.
Proof.
  unfold chan_send. destruct (closed c) eqn:Hc; [discriminate|].
  destruct (length (buf c) <? cap c)%nat; [|discriminate].
  intros H. injection H as <-. simpl. auto.
Qed.

Lemma chan_recv_inv {A} (c c' : chan A) x :
  chan_recv c = Some (x, c') ->
  buf c = x :: buf c' /\ closed c' = closed c /\ cap c' = cap c.
Proof.
  unfold chan_recv. destruct (buf c) as [|y q]; [discriminate|].
  intros H. injection H as <- <-. simpl. auto.
Qed.

Lemma drained_inv {A} (c : chan A) :
  chan_drained c = true -> closed c = true /\ buf c = [].
Proof.
  unfold chan_drained. destruct (closed c); simpl; [|discriminate].
  destruct (buf c); [auto|discriminate].
Qed.

(** Every step keeps the state good. *)
Lemma step_good N a s s' :
  aborted s = false -> inv N s ->
  step DecodeDump formatFloat a s = Some s' -> good N s'.
Proof.
  intros Hab [[done [Hd Hn]] Hip Hex Hop Hw] Hstep.
  unfold step in Hstep. rewrite Hab in Hstep.
  unfold outstanding in Hd.
  destruct a as [n| | |i|i|i| | | |];
    unfold loader_step, worker_step, main_step in Hstep.
  - (* LoaderRead *)
    break_match_hyp Hstep. injection Hstep as <-.
    right. split; [assumption|]. split; simpl; auto; try (intros; congruence).
    exists done. auto.
  - (* LoaderPush *)
    destruct (source s) as [|e rest] eqn:Hsrc; [discriminate|].
    destruct (chan_send (ipipe s) e) as [c|] eqn:Hc; [|discriminate].
    injection Hstep as <-.
    apply chan_send_inv in Hc. destruct Hc as [Hcl [Hb [Hcl' _]]].
    right. split; [assumption|]. split; simpl.
    + exists done. split; [|assumption].
      unfold outstanding. simpl. rewrite Hb, length_app. simpl in *. lia.
    + rewrite Hcl'. discriminate.
    + intros Hin. apply Hex in Hin. apply drained_inv in Hin.
      destruct Hin as [Hin _]. congruence.
    + assumption.
    + assumption.
  - (* LoaderClose *)
    destruct (source s) as [|e rest] eqn:Hsrc; [|discriminate].
    break_match_hyp Hstep. injection Hstep as <-.
    right. split; [assumption|]. split; simpl; auto; try (intros; congruence).
    + exists done. split; [|assumption].
      unfold outstanding. simpl. rewrite Hsrc. simpl in *. lia.
    + intros Hin. apply Hex in Hin. apply drained_inv in Hin.
      destruct Hin as [Hin _]. congruence.
  - (* WorkerRecv *)
    destruct (nth_error (workers s) i) as [[[|o ops]|]|] eqn:Hw_i; try discriminate.
    destruct (chan_recv (ipipe s)) as [[e c]|] eqn:Hc; [|discriminate].
    apply chan_recv_inv in Hc. destruct Hc as [Hb [Hcl _]].
    destruct (iteration DecodeDump formatFloat e) as [ops|m] eqn:Hit;
      injection Hstep as <-.
    + right. split; [assumption|]. split; simpl.
      * apply iteration_inv in Hit. destruct Hit as [o [b [_ [_ ->]]]].
        exists done. split; [|assumption].
        unfold outstanding. simpl.
        pose proof (pending_total_update (workers s) i _ (Active [Incr; Send b]) Hw_i) as Hp.
        simpl in Hp. rewrite Hb in Hd. simpl in Hd. lia.
      * rewrite Hcl. assumption.
      * intros Hin. apply in_update in Hin. destruct Hin as [Hin|Hin]; [discriminate|].
        apply Hex in Hin. apply drained_inv in Hin. destruct Hin as [_ Hin].
        rewrite Hin in Hb. discriminate.
      * intros Hcl'. apply Hop in Hcl'.
        pose proof (all_exited_nth _ _ _ Hcl' Hw_i). discriminate.
      * assumption.
    + left. simpl. split; [reflexivity|].
      destruct (wait s) eqn:Hwait; [|reflexivity].
      specialize (Hop (Hw eq_refl)).
      pose proof (all_exited_nth _ _ _ Hop Hw_i). discriminate.
  - (* WorkerOp *)
    destruct (nth_error (workers s) i) as [[[|[|b] ops]|]|] eqn:Hw_i; try discriminate.
    + injection Hstep as <-.
      right. split; [assumption|]. split; simpl.
      * exists (S done). split.
        -- unfold outstanding. simpl.
           pose proof (pending_total_update (workers s) i _ (Active ops) Hw_i) as Hp.
           simpl in Hp. lia.
        -- rewrite Hn. apply Incr_wrap.
      * assumption.
      * intros Hin. apply in_update in Hin. destruct Hin as [Hin|Hin]; [discriminate|].
        auto.
      * intros Hcl'. apply Hop in Hcl'.
        pose proof (all_exited_nth _ _ _ Hcl' Hw_i). discriminate.
      * assumption.
    + destruct (chan_send (opipe s) b) as [c|] eqn:Hc; [|discriminate].
      injection Hstep as <-.
      apply chan_send_inv in Hc. destruct Hc as [Hcl [Hb [Hcl' _]]].
      right. split; [assumption|]. split; simpl.
      * exists done. split; [|assumption].
        unfold outstanding. simpl.
        pose proof (pending_total_update (workers s) i _ (Active ops) Hw_i) as Hp.
        simpl in Hp. lia.
      * assumption.
      * intros Hin. apply in_update in Hin. destruct Hin as [Hin|Hin]; [discriminate|].
        auto.
      * rewrite Hcl'. discriminate.
      * intros Hwt. apply Hw in Hwt. congruence.
  - (* WorkerExit *)
    destruct (nth_error (workers s) i) as [[[|o ops]|]|] eqn:Hw_i; try discriminate.
    destruct (chan_drained (ipipe s)) eqn:Hdr; [|discriminate].
    injection Hstep as <-.
    right. split; [assumption|]. split; simpl; auto; try (intros; congruence).
    + exists done. split; [|assumption].
      unfold outstanding. simpl.
      pose proof (pending_total_update (workers s) i _ Exited Hw_i) as Hp.
      simpl in Hp. lia.
    + intros Hcl'. apply Hop in Hcl'.
      pose proof (all_exited_nth _ _ _ Hcl' Hw_i). discriminate.
  - (* CloseOpipe *)
    destruct (all_exited (workers s)) eqn:Hall; simpl in Hstep; [|discriminate].
    break_match_hyp Hstep. injection Hstep as <-.
    right. split; [assumption|]. split; simpl; auto; try (intros; congruence).
    exists done. auto.
  - (* WriterRecv *)
    destruct (wait s) eqn:Hwait; [discriminate|].
    destruct (chan_recv (opipe s)) as [[str c]|] eqn:Hc; [|discriminate].
    injection Hstep as <-.
    apply chan_recv_inv in Hc. destruct Hc as [Hb [Hcl _]].
    right. split; [assumption|]. split; simpl; auto; try (intros; congruence).
    + exists done. auto.
    + rewrite Hcl. assumption.
  - (* WriterDone *)
    destruct (chan_drained (opipe s)) eqn:Hdr; simpl in Hstep; [|discriminate].
    break_match_hyp Hstep. injection Hstep as <-.
    apply drained_inv in Hdr. destruct Hdr as [Hcl _].
    right. split; [assumption|]. split; simpl; auto; try (intros; congruence).
    exists done. auto.
  - (* Monitor *)
    injection Hstep as <-.
    right. split; [assumption|]. split; simpl; auto; try (intros; congruence).
    exists done. auto.
Qed.


Lemma run_good N sched : forall s s',
  good N s -> run DecodeDump formatFloat sched s = Some s' -> good N s'.
Proof.
  induction sched as [|a sched IH]; intros s s' Hg Hr; simpl in Hr.
  - now injection Hr as <-.
  - destruct (step DecodeDump formatFloat a s) as [s1|] eqn:Hs; [|discriminate].
    destruct Hg as [[Hab _]|[Hab Hinv]].
    + unfold step in Hs. rewrite Hab in Hs. discriminate.
    + eapply IH; [|eassumption]. eapply step_good; eassumption.
Qed.


(** On completion every record has been counted. *)
Lemma completed_count N s :
  good N s -> workers s <> [] -> completed s ->
  nentry (cmd s) = int64.wrap (Z.of_nat N).
Proof.
  unfold completed. intros [[_ Hw]|[_ [[done [Hd Hn]] Hip Hex Hop Hw]]] Hne Hc.
  - congruence.
  - pose proof (Hop (Hw Hc)) as Hall.
    pose proof (Hex (all_exited_in _ Hne Hall)) as Hdr.
    apply drained_inv in Hdr. destruct Hdr as [Hcl Hb].
    unfold outstanding in Hd.
    rewrite (Hip Hcl), Hb, (all_exited_pending _ Hall) in Hd. simpl in Hd.
    rewrite Hn. f_equal. lia.
Qed.

(** *** A schedule that completes the run *)

Lemma run_app a b : forall s,
  run DecodeDump formatFloat (a ++ b) s =
  match run DecodeDump formatFloat a s with
  | Some s' => run DecodeDump formatFloat b s'
  | None => None
  end.
Proof.
  induction a as [|x a IH]; intros s; simpl.
  - reflexivity.
  - destruct (step DecodeDump formatFloat x s); auto.
Qed.









(** *** One iteration of a worker inside the pipeline *)

Lemma nth_error_update {A} (x : A) l : forall i y,
  nth_error l i = Some y -> nth_error (update i x l) i = Some x.
Proof.
  induction l as [|h t IH]; intros [|i] y H; simpl in *; try discriminate; eauto.
Qed.

Lemma update_update {A} (x y : A) l : forall i,
  update i x (update i y l) = update i x l.
Proof.
  induction l as [|h t IH]; intros [|i]; simpl; auto. now rewrite IH.
Qed.

(** A waiting worker that receives a record whose iteration succeeds with the
    text [b] first increments [nentry], then sends [b] as one element. *)
Lemma worker_iteration_run i s e c b :
  aborted s = false ->
  nth_error (workers s) i = Some (Active []) ->
  chan_recv (ipipe s) = Some (e, c) ->
  iteration DecodeDump formatFloat e = Ok [Incr; Send b] ->
  closed (opipe s) = false ->
  (length (buf (opipe s)) < cap (opipe s))%nat ->
  exists s1 s2 s3,
    step DecodeDump formatFloat (WorkerRecv i) s = Some s1 /\
    nth_error (workers s1) i = Some (Active [Incr; Send b]) /\
    cmd s1 = cmd s /\ opipe s1 = opipe s /\
    step DecodeDump formatFloat (WorkerOp i) s1 = Some s2 /\
    nth_error (workers s2) i = Some (Active [Send b]) /\
    nentry (cmd s2) = atomic2.Incr (nentry (cmd s)) /\
    opipe s2 = opipe s /\
    step DecodeDump formatFloat (WorkerOp i) s2 = Some s3 /\
    nth_error (workers s3) i = Some (Active []) /\
    nentry (cmd s3) = atomic2.Incr (nentry (cmd s)) /\
    wbytes (cmd s3) = wbytes (cmd s) /\
    buf (opipe s3) = buf (opipe s) ++ [b] /\
    saveto s3 = saveto s /\ aborted s3 = false /\ wait s3 = wait s.
Proof.
  intros Hab Hw Hc Hit Hcl Hroom.
  pose proof (nth_error_update (Active [Incr; Send b]) _ _ _ Hw) as Hw1.
  pose proof (nth_error_update (Active [Send b]) _ _ _ Hw1) as Hw2.
  pose proof (nth_error_update (Active []) _ _ _ Hw2) as Hw3.
  assert (Hsend : chan_send (opipe s) b =
                  Some {| buf := buf (opipe s) ++ [b]; cap := cap (opipe s);
                          closed := closed (opipe s) |}).
  { unfold chan_send. rewrite Hcl.
    apply Nat.ltb_lt in Hroom. now rewrite Hroom. }
  eexists. eexists. eexists.
  split; [unfold step, worker_step; rewrite Hab, Hw, Hc, Hit; reflexivity|].
  split; [exact Hw1|].
  split; [reflexivity|]. split; [reflexivity|].
  split; [unfold step, worker_step; cbn [aborted set_workers set_ipipe workers];
          rewrite Hab, Hw1; reflexivity|].
  split; [exact Hw2|].
  split; [reflexivity|]. split; [reflexivity|].
  split; [unfold step, worker_step;
          cbn [aborted set_workers set_ipipe set_cmd workers opipe];
          rewrite Hab, Hw2, Hsend; reflexivity|].
  split; [exact Hw3|].
  repeat split; try reflexivity; assumption.
Qed.

(** C5 (amended). For every record a worker receives and flattens to the text
    [b], the worker first increments [nentry], once, leaving the output queue
    as it was, and then pushes [b], the lines of all the record's items
    together, as one single queue element. *)
Theorem worker_counts_then_sends_once
        (i : nat) (s : state) (e : rdb.BinEntry) (c : chan rdb.BinEntry)
        (o : rdb.object) (b : bytes) :
  aborted s = false ->
  nth_error (workers s) i = Some (Active []) ->
  chan_recv (ipipe s) = Some (e, c) ->
  DecodeDump (rdb.Value e) = Some o ->
  flatten formatFloat e o = Ok b ->
  closed (opipe s) = false ->
  (length (buf (opipe s)) < cap (opipe s))%nat ->
  exists s1 s2 s3,
    step DecodeDump formatFloat (WorkerRecv i) s = Some s1 /\
    step DecodeDump formatFloat (WorkerOp i) s1 = Some s2 /\
    step DecodeDump formatFloat (WorkerOp i) s2 = Some s3 /\
    (nentry (cmd s1) = nentry (cmd s) /\ buf (opipe s1) = buf (opipe s)) /\
    (nentry (cmd s2) = atomic2.Incr (nentry (cmd s)) /\
     buf (opipe s2) = buf (opipe s)) /\
    (nentry (cmd s3) = atomic2.Incr (nentry (cmd s)) /\
     buf (opipe s3) = buf (opipe s) ++ [b]) /\
    nth_error (workers s3) i = Some (Active []).
Proof.
  intros Hab Hw Hc Hd Hf Hcl Hroom.
  assert (Hit : iteration DecodeDump formatFloat e = Ok [Incr; Send b]).
  { unfold iteration. rewrite Hd, Hf. reflexivity. }
  destruct (worker_iteration_run i s e c b Hab Hw Hc Hit Hcl Hroom)
    as (s1 & s2 & s3 & H1 & _ & Hc1 & Ho1 & H2 & _ & Hn2 & Ho2 & H3 & Hw3 & Hn3 & _ & Hb3 & _).
  exists s1, s2, s3.
  rewrite Hc1, Ho1, Ho2. auto 10.
Qed.

(** *** Fatal errors *)

Lemma decoderMain_app pre rest :
  Forall (valid DecodeDump formatFloat) pre ->
  decoderMain DecodeDump formatFloat (pre ++ rest) =
  (fst (decoderMain DecodeDump formatFloat pre) ++
   fst (decoderMain DecodeDump formatFloat rest),
   snd (decoderMain DecodeDump formatFloat rest)).
Proof.
  induction 1 as [|e pre [ops He] Hpre IH]; simpl.
  - now destruct (decoderMain DecodeDump formatFloat rest).
  - rewrite He, IH.
    destruct (decoderMain DecodeDump formatFloat pre) as [t r]. simpl.
    now rewrite app_assoc.
Qed.

Lemma aborted_stuck a s :
  aborted s = true -> step DecodeDump formatFloat a s = None.
Proof. intros H. unfold step. now rewrite H. Qed.

(** C6. When the payload decoder fails on a record, or returns a value of
    unknown kind, the iteration is fatal: a worker run on its own performs
    nothing for this record or any later one, and inside the pipeline the
    receiving step tears the run down, after which no step is possible, so
    the output queue, the destination and the counters stay as they were. *)
Theorem decode_failure_is_fatal (e : rdb.BinEntry) :
  DecodeDump (rdb.Value e) = None \/ DecodeDump (rdb.Value e) = Some rdb.Other ->
  exists msg,
    iteration DecodeDump formatFloat e = Fatal msg /\
    (forall pre post,
        Forall (valid DecodeDump formatFloat) pre ->
        decoderMain DecodeDump formatFloat (pre ++ e :: post) =
        (fst (decoderMain DecodeDump formatFloat pre), Some msg)) /\
    (forall i s c,
        aborted s = false ->
        nth_error (workers s) i = Some (Active []) ->
        chan_recv (ipipe s) = Some (e, c) ->
        exists s',
          step DecodeDump formatFloat (WorkerRecv i) s = Some s' /\
          aborted s' = true /\
          opipe s' = opipe s /\ saveto s' = saveto s /\ cmd s' = cmd s /\
          forall sched, sched <> [] ->
                        run DecodeDump formatFloat sched s' = None).
Proof.
  intros Hd.
  assert (Hit : exists msg, iteration DecodeDump formatFloat e = Fatal msg).
  { unfold iteration. destruct Hd as [-> | ->]; simpl; eauto. }
  destruct Hit as [msg Hit]. exists msg. split; [exact Hit|]. split.
  - intros pre post Hpre. rewrite decoderMain_app by assumption.
    simpl. rewrite Hit. simpl. now rewrite app_nil_r.
  - intros i s c Hab Hw Hc. eexists. split.
    + unfold step, worker_step. rewrite Hab, Hw, Hc, Hit. reflexivity.
    + simpl. repeat split; trivial.
      intros [|a sched] Hne; [congruence|].
      cbn [run]. now rewrite aborted_stuck.
Qed.

(** *** Counters *)

Lemma Add_zero c : int64.in_range c -> atomic2.Add c 0 = c.
Proof.
  intros H. unfold atomic2.Add, int64.add. rewrite Z.add_0_r.
  now apply wrap_in_range.
Qed.







(** C10. A record that decodes to an empty list, hash, set or sorted set is
    flattened to the empty text: the worker still counts it and still pushes
    one queue element, the empty string; the writer, on receiving it, writes
    nothing and adds zero to [wbytes]. *)
Theorem empty_container_record
        (i : nat) (s : state) (e : rdb.BinEntry) (c : chan rdb.BinEntry)
        (o : rdb.object) :
  o = rdb.List [] \/ o = rdb.Hash [] \/ o = rdb.Set_ [] \/ o = rdb.ZSet [] ->
  DecodeDump (rdb.Value e) = Some o ->
  aborted s = false -> wait s = false ->
  nth_error (workers s) i = Some (Active []) ->
  chan_recv (ipipe s) = Some (e, c) ->
  buf (opipe s) = [] -> closed (opipe s) = false -> (0 < cap (opipe s))%nat ->
  int64.in_range (wbytes (cmd s)) ->
  flatten formatFloat e o = Ok [] /\
  count_lines [] = 0%nat /\
  exists s3 s4,
    run DecodeDump formatFloat [WorkerRecv i; WorkerOp i; WorkerOp i] s = Some s3 /\
    buf (opipe s3) = [[]] /\
    nentry (cmd s3) = atomic2.Incr (nentry (cmd s)) /\
    step DecodeDump formatFloat WriterRecv s3 = Some s4 /\
    buf (opipe s4) = [] /\
    saveto s4 = saveto s /\
    wbytes (cmd s4) = atomic2.Add (wbytes (cmd s)) 0 /\
    wbytes (cmd s4) = wbytes (cmd s) /\
    nentry (cmd s4) = atomic2.Incr (nentry (cmd s)).
Proof.
  intros Ho Hd Hab Hwt Hw Hc Hb Hcl Hcap Hin.
  assert (Hf : flatten formatFloat e o = Ok []).
  { destruct Ho as [-> | [-> | [-> | ->]]]; reflexivity. }
  assert (Hit : iteration DecodeDump formatFloat e = Ok [Incr; Send []]).
  { unfold iteration. rewrite Hd, Hf. reflexivity. }
  assert (Hroom : (length (buf (opipe s)) < cap (opipe s))%nat)
    by (rewrite Hb; exact Hcap).
  destruct (worker_iteration_run i s e c [] Hab Hw Hc Hit Hcl Hroom)
    as (s1 & s2 & s3 & H1 & _ & _ & _ & H2 & _ & _ & _ & H3 & _ & Hn3 & Hw3 &
        Hb3 & Hsv3 & Hab3 & Hwt3).
  rewrite Hb in Hb3. simpl in Hb3.
  split; [exact Hf|]. split; [reflexivity|].
  exists s3. eexists.
  split; [cbn [run]; rewrite H1, H2, H3; reflexivity|].
  split; [exact Hb3|]. split; [exact Hn3|].
  split.
  { unfold step, main_step, chan_recv. rewrite Hab3, Hwt3, Hwt, Hb3. reflexivity. }
  cbn [opipe set_opipe set_saveto set_cmd buf saveto cmd wbytes nentry].
  rewrite app_nil_r, Hw3, Hn3, Hsv3.
  change (len (@nil byte)) with 0.
  repeat split; trivial. now apply Add_zero.
Qed.

(** C7. Scenario A: a record with [db = 0], key ["foo"] and [expireAt = 0]
    whose payload decodes to the scalar ["bar"] gives exactly one line,
    the JSON object with db 0, type string, expireat 0, key foo, key64 Zm9v
    and value64 YmFy. *)
Theorem scenario_A (e : rdb.BinEntry) :
  rdb.DB e = 0%N -> rdb.Key e = lit "foo" -> rdb.ExpireAt e = 0%N ->
  DecodeDump (rdb.Value e) = Some (rdb.String (lit "bar")) ->
  exists b,
    iteration DecodeDump formatFloat e = Ok [Incr; Send b] /\
    lines b =
    [jsonlit "{'db':0,'type':'string','expireat':0,'key':'foo','key64':'Zm9v','value64':'YmFy'}"] /\
    count_lines b = 1%nat /\
    b = terminated
          (jsonlit "{'db':0,'type':'string','expireat':0,'key':'foo','key64':'Zm9v','value64':'YmFy'}").
Proof.
  intros Hdb Hkey Hexp Hd.
  unfold iteration. rewrite Hd.
  unfold flatten, emit, toJson, json.Marshal, item, head_fields.
  rewrite Hdb, Hkey, Hexp.
  eexists. split; [vm_compute; reflexivity|].
  split; [vm_compute; reflexivity|].
  split; vm_compute; reflexivity.
Qed.

End PipelineFacts.

(* ------------------------------------------------------------------ *)
(** ** The properties on concrete records *)

Lemma sample_formatFloat_one_line s m x : one_line (sample_formatFloat s m x).
Proof.
  unfold sample_formatFloat.
  apply one_line_app; [destruct s; repeat constructor|].
  apply one_line_app; [apply JsonFacts.formatUint_one_line|].
  apply one_line_cons; [reflexivity|]. apply JsonFacts.formatInt_one_line.
Qed.

Lemma flatten_lines_witness :
  (forall s m x, one_line (sample_formatFloat s m x)) /\
  serializable (rdb.List [lit "a"; lit "b"]) /\
  exists b,
    flatten sample_formatFloat list_ab (rdb.List [lit "a"; lit "b"]) = Ok b /\
    count_lines b = element_count (rdb.List [lit "a"; lit "b"]) /\
    length (lines b) = element_count (rdb.List [lit "a"; lit "b"]) /\
    map Ok (lines b) =
    map (fun x => toJson sample_formatFloat (item list_ab x))
        (elements (rdb.List [lit "a"; lit "b"])).
Proof.
  split; [exact sample_formatFloat_one_line|].
  split; [exact I|].
  apply (flatten_lines sample_formatFloat list_ab (rdb.List [lit "a"; lit "b"])).
  - exact sample_formatFloat_one_line.
  - exact I.
Defined.

(** C1, as stated, fails: a sorted set with one member of score [+Inf] has one
    element, but flattening it is fatal and yields no line. *)
Lemma flatten_infinite_score :
  sample_DecodeDump (rdb.Value zset_inf_entry) = Some zset_inf /\
  element_count zset_inf = 1%nat /\
  flatten sample_formatFloat zset_inf_entry zset_inf = Fatal "encode to json failed" /\
  iteration sample_DecodeDump sample_formatFloat zset_inf_entry
  = Fatal "encode to json failed" /\
  ~ (exists b, flatten sample_formatFloat zset_inf_entry zset_inf = Ok b /\
               count_lines b = element_count zset_inf).
Proof.
  split; [reflexivity|]. split; [reflexivity|].
  split; [reflexivity|]. split; [reflexivity|].
  intros [b [Hb _]]. discriminate Hb.
Qed.


Lemma worker_counts_then_sends_once_witness :
  exists s1 s2 s3,
    step sample_DecodeDump sample_formatFloat (WorkerRecv 0) (queued 1 list_ab) = Some s1 /\
    step sample_DecodeDump sample_formatFloat (WorkerOp 0) s1 = Some s2 /\
    step sample_DecodeDump sample_formatFloat (WorkerOp 0) s2 = Some s3 /\
    (nentry (cmd s1) = nentry (cmd (queued 1 list_ab)) /\
     buf (opipe s1) = buf (opipe (queued 1 list_ab))) /\
    (nentry (cmd s2) = atomic2.Incr (nentry (cmd (queued 1 list_ab))) /\
     buf (opipe s2) = buf (opipe (queued 1 list_ab))) /\
    (nentry (cmd s3) = atomic2.Incr (nentry (cmd (queued 1 list_ab))) /\
     buf (opipe s3) =
     buf (opipe (queued 1 list_ab)) ++
     [jsonlit "{'db':0,'type':'list','expireat':0,'key':'mylist','key64':'bXlsaXN0','index':0,'value64':'YQ=='}"
      ++ [ch_newline] ++
      jsonlit "{'db':0,'type':'list','expireat':0,'key':'mylist','key64':'bXlsaXN0','index':1,'value64':'Yg=='}"
      ++ [ch_newline]]) /\
    nth_error (workers s3) 0 = Some (Active []).
Proof.
  apply (worker_counts_then_sends_once sample_DecodeDump sample_formatFloat
           0 (queued 1 list_ab) list_ab
           {| buf := []; cap := 32; closed := false |}
           (rdb.List [lit "a"; lit "b"])).
  - reflexivity.
  - reflexivity.
  - reflexivity.
  - reflexivity.
  - vm_compute. reflexivity.
  - reflexivity.
  - simpl. lia.
Defined.

(** C5, as stated, fails: for the list record with two elements the counter
    is already incremented while nothing has been pushed, and once the worker
    has pushed, the queue holds one element for the record's two items. *)
Lemma one_queue_element_for_two_items :
  run sample_DecodeDump sample_formatFloat
      [LoaderPush; WorkerRecv 0; WorkerOp 0] (init 2 [list_ab; foo_bar])
  = Some counted_state /\
  nentry (cmd counted_state) = 1 /\ buf (opipe counted_state) = [] /\
  run sample_DecodeDump sample_formatFloat
      [LoaderPush; WorkerRecv 0; WorkerOp 0; WorkerOp 0] (init 2 [list_ab; foo_bar])
  = Some sent_state /\
  length (buf (opipe sent_state)) = 1%nat /\
  map count_lines (buf (opipe sent_state)) = [2%nat] /\
  sample_DecodeDump (rdb.Value list_ab) = Some (rdb.List [lit "a"; lit "b"]) /\
  element_count (rdb.List [lit "a"; lit "b"]) = 2%nat.
Proof.
  repeat split; vm_compute; reflexivity.
Qed.

Lemma decode_failure_is_fatal_witness :
  (sample_DecodeDump (rdb.Value corrupt) = None \/
   sample_DecodeDump (rdb.Value corrupt) = Some rdb.Other) /\
  exists msg,
    iteration sample_DecodeDump sample_formatFloat corrupt = Fatal msg /\
    (forall pre post,
        Forall (valid sample_DecodeDump sample_formatFloat) pre ->
        decoderMain sample_DecodeDump sample_formatFloat (pre ++ corrupt :: post) =
        (fst (decoderMain sample_DecodeDump sample_formatFloat pre), Some msg)) /\
    (forall i s c,
        aborted s = false ->
        nth_error (workers s) i = Some (Active []) ->
        chan_recv (ipipe s) = Some (corrupt, c) ->
        exists s',
          step sample_DecodeDump sample_formatFloat (WorkerRecv i) s = Some s' /\
          aborted s' = true /\
          opipe s' = opipe s /\ saveto s' = saveto s /\ cmd s' = cmd s /\
          forall sched, sched <> [] ->
                        run sample_DecodeDump sample_formatFloat sched s' = None).
Proof.
  split; [left; reflexivity|].
  apply (decode_failure_is_fatal sample_DecodeDump sample_formatFloat corrupt).
  left. reflexivity.
Defined.

Lemma scenario_A_witness :
  rdb.DB foo_bar = 0%N /\ rdb.Key foo_bar = lit "foo" /\ rdb.ExpireAt foo_bar = 0%N /\
  sample_DecodeDump (rdb.Value foo_bar) = Some (rdb.String (lit "bar")) /\
  exists b,
    iteration sample_DecodeDump sample_formatFloat foo_bar = Ok [Incr; Send b] /\
    lines b =
    [jsonlit "{'db':0,'type':'string','expireat':0,'key':'foo','key64':'Zm9v','value64':'YmFy'}"] /\
    count_lines b = 1%nat /\
    b = terminated
          (jsonlit "{'db':0,'type':'string','expireat':0,'key':'foo','key64':'Zm9v','value64':'YmFy'}").
Proof.
  repeat (split; [reflexivity|]).
  apply (scenario_A sample_DecodeDump sample_formatFloat foo_bar); reflexivity.
Defined.


Lemma empty_container_record_witness :
  flatten sample_formatFloat empty_list (rdb.List []) = Ok [] /\
  count_lines [] = 0%nat /\
  exists s3 s4,
    run sample_DecodeDump sample_formatFloat
        [WorkerRecv 0; WorkerOp 0; WorkerOp 0] (queued 1 empty_list) = Some s3 /\
    buf (opipe s3) = [[]] /\
    nentry (cmd s3) = atomic2.Incr (nentry (cmd (queued 1 empty_list))) /\
    step sample_DecodeDump sample_formatFloat WriterRecv s3 = Some s4 /\
    buf (opipe s4) = [] /\
    saveto s4 = saveto (queued 1 empty_list) /\
    wbytes (cmd s4) = atomic2.Add (wbytes (cmd (queued 1 empty_list))) 0 /\
    wbytes (cmd s4) = wbytes (cmd (queued 1 empty_list)) /\
    nentry (cmd s4) = atomic2.Incr (nentry (cmd (queued 1 empty_list))).
Proof.
  apply (empty_container_record sample_DecodeDump sample_formatFloat
           0 (queued 1 empty_list) empty_list
           {| buf := []; cap := 32; closed := false |} (rdb.List [])).
  - left. reflexivity.
  - reflexivity.
  - reflexivity.
  - reflexivity.
  - reflexivity.
  - reflexivity.
  - reflexivity.
  - reflexivity.
  - simpl. lia.
  - simpl. unfold int64.in_range, int64.min, int64.max. lia.
Defined.

(* ================================================================== *)
(** * Further properties *)

(* ------------------------------------------------------------------ *)
(** ** toText and toBase64 *)

Lemma sanitize_fixed c : sanitize c = c <-> 35 <= byte_val c <= 126.
Proof.
  split.
  - intros H. rewrite <- H. apply sanitize_range.
  - intros H. unfold sanitize.
    destruct (35 <=? byte_val c) eqn:E1; destruct (byte_val c <=? 126) eqn:E2;
      simpl; trivial;
      first [apply Z.leb_gt in E1 | apply Z.leb_gt in E2]; lia.
Qed.

(** X1. A byte sequence is left as it is by [toText] exactly when all its
    bytes lie in ['#'..'~'] (35..126). *)
Theorem toText_fixed_points (p : bytes) :
  toText p = p <-> Forall (fun c => 35 <= byte_val c <= 126) p.
Proof.
  rewrite toText_map. induction p as [|c p IH]; simpl.
  - split; auto.
  - split.
    + intros H. injection H as Hc Hp. constructor.
      * now apply sanitize_fixed.
      * now apply IH.
    + intros H. inversion H as [|? ? Hc Hp]; subst.
      f_equal; [now apply sanitize_fixed | now apply IH].
Qed.

(** X2. [toText] works byte by byte: the text of a concatenation is the
    concatenation of the texts. *)
Theorem toText_app (p q : bytes) : toText (p ++ q) = toText p ++ toText q.
Proof. rewrite !toText_map. apply map_app. Qed.

(** X3. [toBase64] writes four characters for every started group of three
    bytes. *)
Theorem toBase64_length (p : bytes) :
  length (toBase64 p) = (4 * ((length p + 2) / 3))%nat.
Proof.
  unfold toBase64.
  induction p as [|a|a b|a b c rest IH] using Base64Facts.quanta_ind;
    try reflexivity.
  cbn [Base64.EncodeToString length]. rewrite IH.
  replace (S (S (S (length rest))) + 2)%nat with (length rest + 2 + 1 * 3)%nat by lia.
  rewrite Nat.div_add by lia. lia.
Qed.

(** X4. [toBase64] is injective: different byte sequences never get the same
    [*64] field. *)
Theorem toBase64_injective (p q : bytes) : toBase64 p = toBase64 q -> p = q.
Proof.
  unfold toBase64. intros H.
  apply (f_equal Base64.decodeQuanta) in H.
  rewrite !Base64Facts.decodeQuanta_EncodeToString in H.
  now injection H.
Qed.

Lemma enc_in_alphabet i : 0 <= i < 64 -> In (Base64.enc i) Base64.encodeStd.
Proof.
  intros Hi. unfold Base64.enc. apply nth_In.
  change (length Base64.encodeStd) with 64%nat. lia.
Qed.

(** X5. The text [toBase64] writes is made of characters of the alphabet,
    followed by as many [=] as bytes are missing in the last group of
    three. *)
Theorem toBase64_shape (p : bytes) :
  exists body,
    toBase64 p = body ++ repeat ch_pad ((3 - length p mod 3) mod 3) /\
    Forall (fun c => In c Base64.encodeStd) body.
Proof.
  unfold toBase64.
  induction p as [|a|a b|a b c rest IH] using Base64Facts.quanta_ind.
  - exists []. split; [reflexivity|constructor].
  - eexists [_; _]. split; [reflexivity|].
    repeat (apply Forall_cons; [apply enc_in_alphabet, Base64Facts.sextet_range|]).
    constructor.
  - eexists [_; _; _]. split; [reflexivity|].
    repeat (apply Forall_cons; [apply enc_in_alphabet, Base64Facts.sextet_range|]).
    constructor.
  - destruct IH as [body [Heq Hall]].
    eexists (_ :: _ :: _ :: _ :: body). split.
    + cbn [Base64.EncodeToString length]. rewrite Heq.
      replace (S (S (S (length rest))) mod 3)%nat with (length rest mod 3)%nat.
      * reflexivity.
      * replace (S (S (S (length rest)))) with (length rest + 1 * 3)%nat by lia.
        now rewrite Nat.Div0.mod_add.
    + repeat (apply Forall_cons; [apply enc_in_alphabet, Base64Facts.sextet_range|]).
      exact Hall.
Qed.

(* ------------------------------------------------------------------ *)
(** ** The pipeline: queues, closing order, counters *)

Section PipelineMore.

Variable DecodeDump : bytes -> option rdb.object.
Variable formatFloat : bool -> positive -> Z -> bytes.

Ltac break_step H :=
  repeat match type of H with
         | context [match ?x with _ => _ end] => destruct x eqn:?; try discriminate H
         | context [if ?x then _ else _] => destruct x eqn:?; try discriminate H
         end.

(** Case analysis on a step: one goal per way the step can be taken. *)
Ltac step_cases a H :=
  unfold step in H;
  match type of H with
  | context [aborted ?s] => destruct (aborted s) eqn:?; [discriminate H|]
  end;
  destruct a; unfold loader_step, worker_step, main_step in H;
  break_step H; injection H as <-.

Ltac chan_facts :=
  repeat match goal with
         | H : chan_send _ _ = Some _ |- _ =>
             apply chan_send_inv in H; destruct H as (? & ? & ? & ?)
         | H : chan_recv _ = Some _ |- _ =>
             apply chan_recv_inv in H; destruct H as (? & ? & ?)
         | H : chan_drained _ = true |- _ =>
             apply drained_inv in H; destruct H as (? & ?)
         end.

Lemma run_preserves (I : state -> Prop) :
  (forall a s s', I s -> step DecodeDump formatFloat a s = Some s' -> I s') ->
  forall sched s s',
    I s -> run DecodeDump formatFloat sched s = Some s' -> I s'.
Proof.
  intros Hstep. induction sched as [|a sched IH]; intros s s' Hi Hr; simpl in Hr.
  - now injection Hr as <-.
  - destruct (step DecodeDump formatFloat a s) as [s1|] eqn:Hs; [|discriminate].
    eapply IH; [|eassumption]. eapply Hstep; eassumption.
Qed.

Lemma chan_send_room {A} (c c' : chan A) x :
  chan_send c x = Some c' -> (length (buf c) < cap c)%nat.
Proof.
  unfold chan_send. destruct (closed c); [discriminate|].
  destruct (length (buf c) <? cap c)%nat eqn:E; [|discriminate].
  intros _. now apply Nat.ltb_lt.
Qed.

Lemma step_shaped P a s s' :
  shaped P s -> step DecodeDump formatFloat a s = Some s' -> shaped P s'.
Proof.
  intros (Hw & Hci & Hco & Hbi & Hbo) H.
  step_cases a H; unfold shaped; simpl; rewrite ?update_length;
    repeat match goal with
           | H : chan_send _ _ = Some _ |- _ =>
               pose proof (chan_send_room _ _ _ H); apply chan_send_inv in H;
               destruct H as (? & ? & ? & ?)
           end;
    chan_facts;
    repeat match goal with
           | H : buf _ = _ |- _ => rewrite H in *
           | H : cap _ = _ |- _ => rewrite H in *
           end;
    rewrite ?length_app in *; simpl in *; repeat split; lia.
Qed.

Lemma init_shaped P src : shaped P (init P src).
Proof. unfold shaped. simpl. rewrite repeat_length. repeat split; lia. Qed.

(** X6. Backpressure: in every state of a run neither queue holds more than
    [P * 32] elements. *)
Theorem queues_bounded (P : nat) (src : list rdb.BinEntry)
        (sched : list action) (s : state) :
  run DecodeDump formatFloat sched (init P src) = Some s ->
  (length (buf (ipipe s)) <= P * 32)%nat /\
  (length (buf (opipe s)) <= P * 32)%nat.
Proof.
  intros Hr.
  assert (H : shaped P s).
  { eapply (run_preserves (shaped P)); [|apply init_shaped|eassumption].
    intros a s0 s1. apply step_shaped. }
  destruct H as (_ & _ & _ & Hi & Ho). auto.
Qed.

Lemma step_wbytes a s s' :
  wbytes (cmd s) = int64.wrap (len (saveto s)) ->
  step DecodeDump formatFloat a s = Some s' ->
  wbytes (cmd s') = int64.wrap (len (saveto s')).
Proof.
  intros Hw H. step_cases a H; simpl; trivial.
  rewrite Hw. unfold atomic2.Add, int64.add. rewrite wrap_add_l.
  f_equal. unfold len. rewrite length_app. lia.
Qed.

Lemma run_wbytes P src sched s :
  run DecodeDump formatFloat sched (init P src) = Some s ->
  wbytes (cmd s) = int64.wrap (len (saveto s)).
Proof.
  intros Hr.
  apply (run_preserves (fun s => wbytes (cmd s) = int64.wrap (len (saveto s))))
    with (sched := sched) (s := init P src).
  - intros a s0 s1. apply step_wbytes.
  - reflexivity.
  - exact Hr.
Qed.

Lemma all_exited_update_active ws i ops w :
  nth_error ws i = Some (Active ops) -> all_exited ws = true -> w = Exited.
Proof.
  intros Hn Hall. pose proof (all_exited_nth _ _ _ Hall Hn). discriminate.
Qed.

Lemma all_exited_update ws : forall i,
  all_exited ws = true -> all_exited (update i Exited ws) = true.
Proof.
  induction ws as [|w ws IH]; intros [|i] H; simpl in *; auto.
  - destruct w; [discriminate|assumption].
  - destruct w; [discriminate|]. now apply IH.
Qed.

Ltac closing_facts :=
  intros; simpl in *;
  repeat match goal with
         | H : In Exited (update _ (Active _) _) |- _ =>
             apply in_update in H; destruct H as [H|H]; [discriminate H|]
         | H : ?x = ?x -> _ |- _ => specialize (H eq_refl)
         | H : ?A -> _, H' : ?A |- _ => specialize (H H')
         | H : _ /\ _ |- _ => destruct H
         | H : _ && _ = true |- _ => apply andb_true_iff in H
         | H : chan_drained _ = true |- _ => apply drained_inv in H
         | Hall : all_exited ?ws = true, Hn : nth_error ?ws _ = Some (Active _) |- _ =>
             pose proof (all_exited_nth _ _ _ Hall Hn); discriminate
         end.

Lemma step_closing a s s' :
  closing s -> step DecodeDump formatFloat a s = Some s' -> closing s'.
Proof.
  intros (Hop & Hex & Hip & Hwt) H.
  step_cases a H; unfold closing; simpl; chan_facts;
    repeat split; closing_facts; try congruence; auto;
    solve [ apply Hip; congruence | apply Hop; congruence
          | apply Hwt; congruence | apply Hex; congruence ].
Qed.

Lemma init_closing P src : closing (init P src).
Proof.
  unfold closing. simpl. repeat split; try discriminate; intros;
    match goal with
    | H : In _ (repeat _ _) |- _ => apply repeat_spec in H; discriminate
    end.
Qed.

Lemma run_closing P src sched s :
  run DecodeDump formatFloat sched (init P src) = Some s -> closing s.
Proof.
  intros Hr. eapply (run_preserves closing); [|apply init_closing|eassumption].
  intros a s0 s1. apply step_closing.
Qed.

Lemma run_shaped P src sched s :
  run DecodeDump formatFloat sched (init P src) = Some s -> shaped P s.
Proof.
  intros Hr. eapply (run_preserves (shaped P)); [|apply init_shaped|eassumption].
  intros a s0 s1. apply step_shaped.
Qed.

Lemma shaped_workers P s : (1 <= P)%nat -> shaped P s -> workers s <> [].
Proof.
  intros HP (Hw & _) E. rewrite E in Hw. simpl in Hw. lia.
Qed.

(** X8. The closing order of [Main]: whenever the output queue is closed,
    every worker has returned, the input queue is closed and empty and the
    source is exhausted; so nothing is ever pushed after [close(opipe)]. *)
Theorem opipe_closed_after_workers (P : nat) (src : list rdb.BinEntry)
        (sched : list action) (s : state) :
  (1 <= P)%nat ->
  run DecodeDump formatFloat sched (init P src) = Some s ->
  closed (opipe s) = true ->
  all_exited (workers s) = true /\
  closed (ipipe s) = true /\ buf (ipipe s) = [] /\ source s = [] /\
  forall i, step DecodeDump formatFloat (WorkerOp i) s = None.
Proof.
  intros HP Hr Hcl.
  destruct (run_closing _ _ _ _ Hr) as (Hop & Hex & Hip & _).
  pose proof (shaped_workers P s HP (run_shaped _ _ _ _ Hr)) as Hne.
  pose proof (Hop Hcl) as Hall.
  destruct (Hex (all_exited_in _ Hne Hall)) as [Hci Hbi].
  repeat split; auto.
  intros i. unfold step, worker_step.
  destruct (aborted s); [reflexivity|].
  destruct (nth_error (workers s) i) as [[ops|]|] eqn:Hn; trivial.
  pose proof (all_exited_nth _ _ _ Hall Hn). discriminate.
Qed.

(** X9. Once the writer has signalled completion, the only step left is the
    monitor's: counters and destination have their final values. *)
Theorem completed_is_final (P : nat) (src : list rdb.BinEntry)
        (sched : list action) (s : state) (a : action) (s' : state) :
  (1 <= P)%nat ->
  run DecodeDump formatFloat sched (init P src) = Some s ->
  completed s ->
  step DecodeDump formatFloat a s = Some s' ->
  a = Monitor /\ cmd s' = cmd s /\ saveto s' = saveto s /\ completed s'.
Proof.
  unfold completed. intros HP Hr Hc H.
  destruct (run_closing _ _ _ _ Hr) as (Hop & Hex & Hip & Hwt).
  pose proof (shaped_workers P s HP (run_shaped _ _ _ _ Hr)) as Hne.
  destruct (Hwt Hc) as [Hco Hbo].
  pose proof (Hop Hco) as Hall.
  destruct (Hex (all_exited_in _ Hne Hall)) as [Hci Hbi].
  pose proof (Hip Hci) as Hsrc.
  step_cases a H; simpl; auto; try congruence;
    try (match goal with Hn : nth_error _ _ = Some (Active _) |- _ =>
           pose proof (all_exited_nth _ _ _ Hall Hn) end; discriminate).
  all: try (match goal with Ha : _ && _ = true |- _ =>
              apply andb_true_iff in Ha; destruct Ha as [_ Ha] end;
            rewrite ?Hco, ?Hc in *; discriminate).
Qed.

(** X10. The status sample the monitor takes after completion shows the
    final totals: as many entries as records, and as many bytes written as the
    destination holds. *)
Theorem final_report (P : nat) (src : list rdb.BinEntry)
        (sched : list action) (s s' : state) :
  (1 <= P)%nat ->
  run DecodeDump formatFloat sched (init P src) = Some s ->
  completed s ->
  step DecodeDump formatFloat Monitor s = Some s' ->
  exists r,
    reports s' = reports s ++ [r] /\
    stat_nentry r = int64.wrap (len src) /\
    stat_wbytes r = int64.wrap (len (saveto s)).
Proof.
  intros HP Hr Hc H.
  assert (Hg : good (length src) s).
  { eapply run_good; [|eassumption]. right. split; [reflexivity|apply init_inv]. }
  pose proof (shaped_workers P s HP (run_shaped _ _ _ _ Hr)) as Hne.
  pose proof (completed_count _ _ Hg Hne Hc) as Hn.
  pose proof (run_wbytes _ _ _ _ Hr) as Hw.
  unfold step in H. destruct (aborted s); [discriminate|].
  simpl in H. injection H as <-. simpl.
  exists (Stat (cmd s)). auto.
Qed.

(** *** What reaches the destination *)

Lemma occurrences_app x l l' :
  occurrences x (l ++ l') = (occurrences x l + occurrences x l')%nat.
Proof. apply count_occ_app. Qed.

Lemma occurrences_update x ws : forall i w w',
  nth_error ws i = Some w ->
  (occurrences x (flat_map pending_sends (update i w' ws)) +
   occurrences x (pending_sends w) =
   occurrences x (flat_map pending_sends ws) +
   occurrences x (pending_sends w'))%nat.
Proof.
  induction ws as [|h t IH]; intros [|i] w w' H; simpl in *; try discriminate.
  - injection H as ->. rewrite !occurrences_app. lia.
  - rewrite !occurrences_app. specialize (IH i w w' H). lia.
Qed.

Lemma all_exited_sends ws :
  all_exited ws = true -> flat_map pending_sends ws = [].
Proof.
  induction ws as [|[ops|] t IH]; simpl; intros H; try discriminate; auto.
Qed.

Lemma step_accounted src a s s' :
  accounted DecodeDump formatFloat src s ->
  step DecodeDump formatFloat a s = Some s' ->
  accounted DecodeDump formatFloat src s'.
Proof.
  intros Hacc H.
  destruct Hacc as [Hab | [written [Hsv Hocc]]].
  { unfold step in H. rewrite Hab in H. discriminate. }
  unfold in_flight in Hocc.
  step_cases a H; unfold accounted, in_flight; simpl; chan_facts;
    try (right; exists written; split; [assumption|]; intros x;
         specialize (Hocc x); revert Hocc;
         repeat match goal with
                | Hn : nth_error (workers s) ?i = Some ?w
                  |- context [update ?i ?w' (workers s)] =>
                    pose proof (occurrences_update x (workers s) i w w' Hn);
                    clear Hn
                | Hb : buf _ = _ |- _ => rewrite Hb; clear Hb
                | Hs : source s = _ |- _ => rewrite Hs; clear Hs
                end;
         unfold record_texts;
         simpl in *;
         rewrite <- ?app_assoc; simpl;
         rewrite ?flat_map_app; simpl;
         repeat match goal with
                | Hi : iteration _ _ _ = _ |- _ => rewrite Hi; clear Hi
                end;
         rewrite ?occurrences_app in *; simpl in *;
         rewrite ?occurrences_app in *; simpl in *; intros;
         repeat match goal with
                | H : context [if ?c then _ else _] |- _ => destruct c
                | |- context [if ?c then _ else _] => destruct c
                end;
         try congruence; lia).
  - (* the writer *)
    right. exists (written ++ [b]). split.
    + rewrite concat_app. simpl. rewrite app_nil_r. now rewrite Hsv.
    + intros x. specialize (Hocc x). revert Hocc.
      match goal with Hb : buf _ = _ |- _ => rewrite Hb end.
      rewrite !occurrences_app. simpl.
      destruct (list_eq_dec Byte.byte_eq_dec b x); simpl; intros; lia.
Qed.

Lemma idle_workers_send_nothing P : flat_map pending_sends (repeat (Active []) P) = [].
Proof. induction P; simpl; auto. Qed.

Lemma init_accounted P src : accounted DecodeDump formatFloat src (init P src).
Proof.
  right. exists []. split; [reflexivity|]. intros x.
  unfold in_flight. simpl. now rewrite idle_workers_send_nothing.
Qed.

Lemma completed_not_aborted P src sched s :
  run DecodeDump formatFloat sched (init P src) = Some s ->
  completed s -> aborted s = false.
Proof.
  unfold completed. intros Hr Hc.
  assert (Hg : good (length src) s).
  { eapply run_good; [|eassumption]. right. split; [reflexivity|apply init_inv]. }
  destruct Hg as [[_ Hw]|[Hab _]]; congruence.
Qed.

Lemma completed_nothing_in_flight P src sched s :
  (1 <= P)%nat ->
  run DecodeDump formatFloat sched (init P src) = Some s ->
  completed s -> in_flight DecodeDump formatFloat s = [].
Proof.
  unfold completed. intros HP Hr Hc.
  destruct (run_closing _ _ _ _ Hr) as (Hop & Hex & Hip & Hwt).
  pose proof (shaped_workers P s HP (run_shaped _ _ _ _ Hr)) as Hne.
  destruct (Hwt Hc) as [Hco Hbo].
  pose proof (Hop Hco) as Hall.
  destruct (Hex (all_exited_in _ Hne Hall)) as [Hci Hbi].
  unfold in_flight.
  now rewrite Hbo, Hbi, (Hip Hci), (all_exited_sends _ Hall).
Qed.

Lemma output_permutation_aux src P sched s :
  (1 <= P)%nat ->
  run DecodeDump formatFloat sched (init P src) = Some s ->
  completed s ->
  exists written,
    saveto s = concat written /\
    Permutation written (flat_map (record_texts DecodeDump formatFloat) src).
Proof.
  intros HP Hr Hc.
  assert (Hacc : accounted DecodeDump formatFloat src s).
  { apply (run_preserves (accounted DecodeDump formatFloat src))
      with (sched := sched) (s := init P src).
    - intros a s0 s1. apply step_accounted.
    - apply init_accounted.
    - exact Hr. }
  destruct Hacc as [Hab | [written [Hsv Hocc]]].
  - rewrite (completed_not_aborted _ _ _ _ Hr Hc) in Hab. discriminate.
  - exists written. split; [exact Hsv|].
    apply (Permutation_count_occ (list_eq_dec Byte.byte_eq_dec)).
    intros x. specialize (Hocc x).
    rewrite (completed_nothing_in_flight P src sched s HP Hr Hc) in Hocc.
    unfold occurrences in Hocc. simpl in Hocc. lia.
Qed.

(** X11. When the run has completed, the destination holds exactly the texts
    of the records, each once and in one piece, in some order: no record is
    lost or duplicated and the lines of two records are never interleaved. *)
Theorem output_is_the_records (P : nat) (src : list rdb.BinEntry)
        (sched : list action) (s : state) :
  (1 <= P)%nat ->
  run DecodeDump formatFloat sched (init P src) = Some s ->
  completed s ->
  exists written,
    saveto s = concat written /\
    Permutation written (flat_map (record_texts DecodeDump formatFloat) src).
Proof.
  intros HP Hr Hc. now apply (output_permutation_aux src P sched s).
Qed.

Lemma count_lines_concat_sum l :
  count_lines (concat l) = list_sum (map count_lines l).
Proof.
  induction l as [|x l IH]; simpl; [reflexivity|].
  now rewrite count_lines_app, IH.
Qed.

Lemma list_sum_permutation l l' : Permutation l l' -> list_sum l = list_sum l'.
Proof. induction 1; simpl; lia. Qed.

(** X12. The number of lines written by a completed run depends on the
    records only: it is the same for every number of workers and every
    interleaving. *)
Theorem lines_written_independent (P P' : nat) (src : list rdb.BinEntry)
        (sched sched' : list action) (s s' : state) :
  (1 <= P)%nat -> (1 <= P')%nat ->
  run DecodeDump formatFloat sched (init P src) = Some s -> completed s ->
  run DecodeDump formatFloat sched' (init P' src) = Some s' -> completed s' ->
  count_lines (saveto s) = count_lines (saveto s') /\
  count_lines (saveto s) =
  list_sum (map count_lines (flat_map (record_texts DecodeDump formatFloat) src)).
Proof.
  intros HP HP' Hr Hc Hr' Hc'.
  assert (Hn : forall Q sc st,
             (1 <= Q)%nat ->
             run DecodeDump formatFloat sc (init Q src) = Some st -> completed st ->
             count_lines (saveto st) =
             list_sum (map count_lines
                           (flat_map (record_texts DecodeDump formatFloat) src))).
  { intros Q sc st HQ Hrun Hcomp.
    destruct (output_permutation_aux src Q sc st HQ Hrun Hcomp) as [written [-> Hperm]].
    rewrite count_lines_concat_sum.
    apply list_sum_permutation, Permutation_map, Hperm. }
  split; [|now apply (Hn P sched)].
  rewrite (Hn P sched s), (Hn P' sched' s'); auto.
Qed.

(** *** A single worker keeps the order *)

Lemma step_in_order src a s s' :
  shaped 1 s ->
  in_order DecodeDump formatFloat src s ->
  step DecodeDump formatFloat a s = Some s' ->
  in_order DecodeDump formatFloat src s'.
Proof.
  intros (Hlen & _) Hord H.
  destruct Hord as [Hab | Heq].
  { unfold step in H. rewrite Hab in H. discriminate. }
  unfold in_flight in Heq.
  destruct (workers s) as [|w [|w2 ws]] eqn:Hws; simpl in Hlen; try discriminate Hlen.
  step_cases a H; unfold in_order, in_flight; simpl; chan_facts;
    repeat match goal with
           | Hn : nth_error (workers s) ?i = Some _ |- _ =>
               rewrite Hws in Hn; destruct i as [|[|?]]; simpl in Hn;
               try discriminate Hn; injection Hn as Hn; subst w
           end;
    rewrite ?Hws; simpl;
    try (left; reflexivity);
    right; revert Heq;
    repeat match goal with
           | Hb : buf _ = _ |- _ => rewrite Hb; clear Hb
           | Hs : source s = _ |- _ => rewrite Hs; clear Hs
           end;
    unfold record_texts; simpl;
    rewrite <- ?app_assoc; simpl;
    rewrite ?flat_map_app; simpl;
    repeat match goal with
           | Hi : iteration _ _ _ = _ |- _ => rewrite Hi; clear Hi
           end;
    rewrite ?concat_app; simpl;
    rewrite ?app_nil_r; rewrite <- ?app_assoc; simpl;
    intros Heq; try exact Heq.
Qed.

Lemma init_in_order P src : in_order DecodeDump formatFloat src (init P src).
Proof.
  right. unfold in_flight. simpl. now rewrite idle_workers_send_nothing.
Qed.

(** X13. With a single worker the destination holds, on completion, the texts
    of the records in the order of the input stream. *)
Theorem single_worker_keeps_order (src : list rdb.BinEntry)
        (sched : list action) (s : state) :
  run DecodeDump formatFloat sched (init 1 src) = Some s ->
  completed s ->
  saveto s = concat (flat_map (record_texts DecodeDump formatFloat) src).
Proof.
  intros Hr Hc.
  assert (H : shaped 1 s /\ in_order DecodeDump formatFloat src s).
  { apply (run_preserves (fun s => shaped 1 s /\ in_order DecodeDump formatFloat src s))
      with (sched := sched) (s := init 1 src).
    - intros a s0 s1 [Hsh Hord] Hstep. split.
      + eapply step_shaped; eassumption.
      + eapply step_in_order; eassumption.
    - split; [apply init_shaped | apply init_in_order].
    - exact Hr. }
  destruct H as [_ [Hab | Heq]].
  - rewrite (completed_not_aborted _ _ _ _ Hr Hc) in Hab. discriminate.
  - rewrite (completed_nothing_in_flight 1 src sched s (le_n 1) Hr Hc) in Heq.
    simpl in Heq. now rewrite app_nil_r in Heq.
Qed.

(** *** Progress *)

Lemma workers_cases ws :
  (exists i o ops, nth_error ws i = Some (Active (o :: ops))) \/
  (exists i, nth_error ws i = Some (Active [])) \/
  all_exited ws = true.
Proof.
  induction ws as [|w ws IH].
  - right. right. reflexivity.
  - destruct w as [[|o ops]|].
    + right. left. exists 0%nat. reflexivity.
    + left. exists 0%nat, o, ops. reflexivity.
    + destruct IH as [(i & o & ops & H) | [(i & H) | H]].
      * left. exists (S i), o, ops. exact H.
      * right. left. exists (S i). exact H.
      * right. right. exact H.
Qed.

Lemma deadlock_free_aux (P : nat) (src : list rdb.BinEntry)
        (sched : list action) (s : state) :
  (1 <= P)%nat ->
  run DecodeDump formatFloat sched (init P src) = Some s ->
  aborted s = false -> wait s = false ->
  exists a s', is_work a = true /\ step DecodeDump formatFloat a s = Some s'.
Proof.
  intros HP Hr Hab Hw.
  destruct (run_closing _ _ _ _ Hr) as (Hop & Hex & Hip & Hwt).
  pose proof (run_shaped _ _ _ _ Hr) as Hsh.
  pose proof (shaped_workers P s HP Hsh) as Hne.
  destruct Hsh as (_ & Hci & Hco & _ & _).
  unfold step. rewrite Hab.
  destruct (buf (opipe s)) as [|str q] eqn:Hbo.
  2: { exists WriterRecv. eexists. split; [reflexivity|].
       unfold main_step, chan_recv. rewrite Hw, Hbo. reflexivity. }
  destruct (workers_cases (workers s)) as [(i & o & ops & Hn) | [(i & Hn) | Hall]].
  - (* a worker in the middle of an iteration *)
    exists (WorkerOp i). destruct o as [|b].
    + eexists. split; [reflexivity|]. unfold worker_step. rewrite Hn. reflexivity.
    + assert (Hcl : closed (opipe s) = false).
      { destruct (closed (opipe s)) eqn:E; trivial.
        pose proof (all_exited_nth _ _ _ (Hop eq_refl) Hn). discriminate. }
      eexists. split; [reflexivity|].
      unfold worker_step, chan_send. rewrite Hn, Hcl, Hbo, Hco.
      assert (Hlt : (length (@nil bytes) <? P * 32)%nat = true)
        by (apply Nat.ltb_lt; simpl; lia).
      rewrite Hlt. reflexivity.
  - (* a worker waiting for a record *)
    destruct (buf (ipipe s)) as [|e q] eqn:Hbi.
    + destruct (closed (ipipe s)) eqn:Hcl.
      * exists (WorkerExit i). eexists. split; [reflexivity|].
        unfold worker_step, chan_drained. rewrite Hn, Hcl, Hbi. reflexivity.
      * destruct (source s) as [|e rest] eqn:Hsrc.
        -- exists LoaderClose. eexists. split; [reflexivity|].
           unfold loader_step. rewrite Hsrc, Hcl. reflexivity.
        -- exists LoaderPush. eexists. split; [reflexivity|].
           unfold loader_step, chan_send. rewrite Hsrc, Hcl, Hbi, Hci.
           assert (Hlt : (length (@nil rdb.BinEntry) <? P * 32)%nat = true)
             by (apply Nat.ltb_lt; simpl; lia).
           rewrite Hlt. reflexivity.
    + exists (WorkerRecv i).
      unfold worker_step, chan_recv. rewrite Hn, Hbi.
      destruct (iteration DecodeDump formatFloat e);
        eexists; (split; [reflexivity|]); reflexivity.
  - (* every worker has returned *)
    destruct (closed (opipe s)) eqn:Hcl.
    + exists WriterDone. eexists. split; [reflexivity|].
      unfold main_step, chan_drained. rewrite Hcl, Hbo, Hw. reflexivity.
    + exists CloseOpipe. eexists. split; [reflexivity|].
      unfold main_step. rewrite Hall, Hcl. reflexivity.
Qed.

(** X14. The pipeline cannot deadlock: in every state of a run that is
    neither torn down nor complete, some goroutine of the data path (loader,
    worker, barrier or writer) can take a step. *)
Theorem deadlock_free (P : nat) (src : list rdb.BinEntry)
        (sched : list action) (s : state) :
  (1 <= P)%nat ->
  run DecodeDump formatFloat sched (init P src) = Some s ->
  aborted s = false -> wait s = false ->
  exists a s', is_work a = true /\ step DecodeDump formatFloat a s = Some s'.
Proof.
  intros HP Hr Hab Hw. now apply (deadlock_free_aux P src sched s).
Qed.

Lemma weight_update ws : forall i w w',
  nth_error ws i = Some w ->
  (list_sum (map worker_weight (update i w' ws)) + worker_weight w =
   list_sum (map worker_weight ws) + worker_weight w')%nat.
Proof.
  induction ws as [|h t IH]; intros [|i] w w' H; simpl in *; try discriminate.
  - injection H as ->. lia.
  - specialize (IH i w w' H). lia.
Qed.

Lemma step_work_left a s s' :
  is_work a = true ->
  step DecodeDump formatFloat a s = Some s' ->
  (work_left s' < work_left s)%nat.
Proof.
  intros Hwork H.
  step_cases a H; try discriminate Hwork; unfold work_left; simpl; chan_facts;
    repeat match goal with
           | Hi : iteration _ _ _ = Ok _ |- _ =>
               apply iteration_inv in Hi; destruct Hi as (? & ? & _ & _ & ->)
           | Hn : nth_error (workers s) ?i = Some ?w
             |- context [update ?i ?w' (workers s)] =>
               pose proof (weight_update (workers s) i w w' Hn); clear Hn
           | Hb : buf _ = _ |- _ => rewrite Hb in *; clear Hb
           | Hs : source s = _ |- _ => rewrite Hs in *; clear Hs
           | Hc : closed _ = _ |- _ => rewrite Hc in *; clear Hc
           | Hw : wait _ = _ |- _ => rewrite Hw in *; clear Hw
           | Ha : _ && _ = true |- _ => apply andb_true_iff in Ha; destruct Ha
           | Hn : negb _ = true |- _ => apply negb_true_iff in Hn
           end;
    rewrite ?length_app in *; simpl in *;
    repeat match goal with
           | |- context [if ?c then _ else _] => destruct c
           end;
    lia.
Qed.

Lemma run_snoc sched a s0 s s' :
  run DecodeDump formatFloat sched s0 = Some s ->
  step DecodeDump formatFloat a s = Some s' ->
  run DecodeDump formatFloat (sched ++ [a]) s0 = Some s'.
Proof.
  intros Hr Hs. rewrite run_app, Hr. simpl. now rewrite Hs.
Qed.

Lemma can_finish_aux P src : (1 <= P)%nat ->
  forall n sched s,
    (work_left s < n)%nat ->
    run DecodeDump formatFloat sched (init P src) = Some s ->
    exists rest s',
      run DecodeDump formatFloat rest s = Some s' /\
      (completed s' \/ aborted s' = true).
Proof.
  intros HP. induction n as [|n IH]; intros sched s Hlt Hr; [lia|].
  destruct (aborted s) eqn:Hab.
  { exists [], s. split; [reflexivity|]. now right. }
  destruct (wait s) eqn:Hw.
  { exists [], s. split; [reflexivity|]. now left. }
  destruct (deadlock_free_aux P src sched s HP Hr Hab Hw) as (a & s1 & Ha & Hs).
  pose proof (step_work_left a s s1 Ha Hs) as Hdec.
  destruct (IH (sched ++ [a]) s1) as (rest & s' & Hrest & Hend).
  - lia.
  - eapply run_snoc; eassumption.
  - exists (a :: rest), s'. split; [|exact Hend].
    simpl. now rewrite Hs.
Qed.

(** X16. From every state of a run the pipeline can be brought to an end:
    some continuation leads to completion or to a fatal abort. *)
Theorem can_finish (P : nat) (src : list rdb.BinEntry)
        (sched : list action) (s : state) :
  (1 <= P)%nat ->
  run DecodeDump formatFloat sched (init P src) = Some s ->
  exists rest s',
    run DecodeDump formatFloat rest s = Some s' /\
    (completed s' \/ aborted s' = true).
Proof.
  intros HP Hr.
  apply (can_finish_aux P src HP (S (work_left s)) sched s); [lia|exact Hr].
Qed.


(** *** A worker on its own *)

(** X20. A worker run on its own does, for each record up to the first one
    whose iteration aborts and in the order received, one increment followed
    by one send of the text the record flattens to, and nothing else; it ends
    with the diagnostic of that record, or with none if there is none. *)
Theorem decoderMain_exact (received : list rdb.BinEntry) :
  exists pre rest texts,
    received = pre ++ rest /\
    Forall2 (fun e b => exists o, DecodeDump (rdb.Value e) = Some o /\
                                  flatten formatFloat e o = Ok b) pre texts /\
    fst (decoderMain DecodeDump formatFloat received) =
      flat_map (fun b => [Incr; Send b]) texts /\
    sends (fst (decoderMain DecodeDump formatFloat received)) = texts /\
    length (filter is_incr (fst (decoderMain DecodeDump formatFloat received))) =
      length pre /\
    match rest with
    | [] => snd (decoderMain DecodeDump formatFloat received) = None
    | e :: _ =>
        exists msg, iteration DecodeDump formatFloat e = Fatal msg /\
                    snd (decoderMain DecodeDump formatFloat received) = Some msg
    end.
Proof.
  induction received as [|e l (pre & rest & texts & Hl & Hf & Hops & Hs & Hn & Hr)].
  - exists [], [], []. simpl. repeat split; constructor.
  - simpl. destruct (iteration DecodeDump formatFloat e) as [ops|msg] eqn:Hit.
    + destruct (iteration_inv _ _ _ _ Hit) as (o & b & Hd & Hfl & ->).
      destruct (decoderMain DecodeDump formatFloat l) as [t r]. simpl in *.
      exists (e :: pre), rest, (b :: texts). subst l. repeat split.
      * constructor; [|exact Hf]. exists o. auto.
      * simpl. now rewrite Hops.
      * now rewrite Hs.
      * now rewrite Hn.
      * exact Hr.
    + exists [], (e :: l), []. simpl. repeat split; try constructor.
      exists msg. auto.
Qed.

(** *** How often each loop runs *)

Lemma run_count (k : action -> bool) (m : state -> nat) :
  (forall a s s', step DecodeDump formatFloat a s = Some s' ->
                  ((if k a then 1 else 0) + m s' <= m s)%nat) ->
  forall sched s s',
    run DecodeDump formatFloat sched s = Some s' ->
    (count_steps k sched + m s' <= m s)%nat.
Proof.
  intros Hstep. unfold count_steps.
  induction sched as [|a sched IH]; intros s s' Hr; simpl in *.
  - injection Hr as <-. lia.
  - destruct (step DecodeDump formatFloat a s) as [s1|] eqn:Hs; [|discriminate].
    specialize (Hstep a s s1 Hs). specialize (IH s1 s' Hr).
    destruct (k a); simpl; lia.
Qed.

Lemma sum_update (f : worker -> nat) ws : forall i w w',
  nth_error ws i = Some w ->
  (list_sum (map f (update i w' ws)) + f w = list_sum (map f ws) + f w')%nat.
Proof.
  induction ws as [|h t IH]; intros [|i] w w' H; simpl in *; try discriminate.
  - injection H as ->. lia.
  - specialize (IH i w w' H). lia.
Qed.

Ltac measure_step f :=
  simpl; chan_facts;
  repeat match goal with
         | Hi : iteration _ _ _ = Ok _ |- _ =>
             apply iteration_inv in Hi; destruct Hi as (? & ? & _ & _ & ->)
         | Hn : nth_error (workers ?s) ?i = Some ?w
           |- context [update ?i ?w' (workers ?s)] =>
             pose proof (sum_update f (workers s) i w w' Hn); clear Hn
         | Hb : buf _ = _ |- _ => rewrite Hb in *; clear Hb
         | Hs : source _ = _ |- _ => rewrite Hs in *; clear Hs
         | Hc : closed _ = _ |- _ => rewrite Hc in *; clear Hc
         | Hw : wait _ = _ |- _ => rewrite Hw in *; clear Hw
         | Ha : _ && _ = true |- _ => apply andb_true_iff in Ha; destruct Ha
         | Hn : negb _ = true |- _ => apply negb_true_iff in Hn
         end;
  rewrite ?length_app in *; simpl in *;
  repeat match goal with
         | |- context [if ?c then _ else _] => destruct c
         end;
  try lia.

Lemma step_push a s s' :
  step DecodeDump formatFloat a s = Some s' ->
  ((if is_push a then 1 else 0) + length (source s') <= length (source s))%nat.
Proof. intros H. step_cases a H; measure_step running. Qed.

Lemma step_recv a s s' :
  step DecodeDump formatFloat a s = Some s' ->
  ((if is_recv a then 1 else 0) + to_receive s' <= to_receive s)%nat.
Proof. intros H. step_cases a H; unfold to_receive; measure_step running. Qed.

Lemma step_op a s s' :
  step DecodeDump formatFloat a s = Some s' ->
  ((if is_op a then 1 else 0) + ops_left s' <= ops_left s)%nat.
Proof.
  intros H. step_cases a H; unfold ops_left, to_receive; measure_step pending_ops.
Qed.

Lemma step_write a s s' :
  step DecodeDump formatFloat a s = Some s' ->
  ((if is_write a then 1 else 0) + writes_left s' <= writes_left s)%nat.
Proof.
  intros H. step_cases a H; unfold writes_left, to_receive;
    measure_step pending_send_count.
Qed.

Lemma step_exit a s s' :
  step DecodeDump formatFloat a s = Some s' ->
  ((if is_exit a then 1 else 0) + workers_left s' <= workers_left s)%nat.
Proof. intros H. step_cases a H; unfold workers_left; measure_step running. Qed.

Lemma step_close_ipipe a s s' :
  step DecodeDump formatFloat a s = Some s' ->
  ((if is_close_ipipe a then 1 else 0) + open_flag (closed (ipipe s'))
   <= open_flag (closed (ipipe s)))%nat.
Proof. intros H. step_cases a H; unfold open_flag; measure_step running. Qed.

Lemma step_close_opipe a s s' :
  step DecodeDump formatFloat a s = Some s' ->
  ((if is_close_opipe a then 1 else 0) + open_flag (closed (opipe s'))
   <= open_flag (closed (opipe s)))%nat.
Proof. intros H. step_cases a H; unfold open_flag; measure_step running. Qed.

Lemma step_close_wait a s s' :
  step DecodeDump formatFloat a s = Some s' ->
  ((if is_close_wait a then 1 else 0) + open_flag (wait s')
   <= open_flag (wait s))%nat.
Proof. intros H. step_cases a H; unfold open_flag; measure_step running. Qed.

Lemma sum_idle (f : worker -> nat) P :
  list_sum (map f (repeat (Active []) P)) = (P * f (Active []))%nat.
Proof. induction P; simpl; auto. Qed.

(** X15. Every loop of the pipeline runs a bounded number of times, whatever
    the schedule (status samples and reads of the loader's reader included,
    in any number): over [N] records with [P] workers the loader pushes at
    most [N] records, the workers receive at most [N] records and perform at
    most [2 * N] operations (an increment and a send for each record), the
    writer's loop body runs at most [N] times, at most [P] workers return,
    and each of [ipipe], [opipe] and [wait] is closed at most once. *)
Theorem loops_bounded (P : nat) (src : list rdb.BinEntry)
        (sched : list action) (s : state) :
  run DecodeDump formatFloat sched (init P src) = Some s ->
  (count_steps is_push sched <= length src)%nat /\
  (count_steps is_recv sched <= length src)%nat /\
  (count_steps is_op sched <= 2 * length src)%nat /\
  (count_steps is_write sched <= length src)%nat /\
  (count_steps is_exit sched <= P)%nat /\
  (count_steps is_close_ipipe sched <= 1)%nat /\
  (count_steps is_close_opipe sched <= 1)%nat /\
  (count_steps is_close_wait sched <= 1)%nat.
Proof.
  intros Hr.
  pose proof (run_count is_push (fun s => length (source s)) step_push _ _ _ Hr) as H1.
  pose proof (run_count is_recv to_receive step_recv _ _ _ Hr) as H2.
  pose proof (run_count is_op ops_left step_op _ _ _ Hr) as H3.
  pose proof (run_count is_write writes_left step_write _ _ _ Hr) as H4.
  pose proof (run_count is_exit workers_left step_exit _ _ _ Hr) as H5.
  pose proof (run_count is_close_ipipe (fun s => open_flag (closed (ipipe s)))
                step_close_ipipe _ _ _ Hr) as H6.
  pose proof (run_count is_close_opipe (fun s => open_flag (closed (opipe s)))
                step_close_opipe _ _ _ Hr) as H7.
  pose proof (run_count is_close_wait (fun s => open_flag (wait s))
                step_close_wait _ _ _ Hr) as H8.
  unfold ops_left, writes_left, workers_left, to_receive in *.
  simpl in H1, H2, H3, H4, H5, H6, H7, H8.
  rewrite sum_idle in H3, H4, H5. simpl in H3, H4, H5.
  repeat split; lia.
Qed.

(** *** The record counter at the end of its range *)






(** *** The writer's iteration *)

(** X21. The writer's step of the pipeline is a whole iteration of the
    writer's loop: taking the string at the head of [opipe], the addition to
    [wbytes], [WriteString] and the flush, all succeeding, lead from the
    counter and the destination before the step to those after it, however
    the buffered writer splits the string. *)
Theorem writer_step_is_iteration (s s' : state) (i k j : nat) :
  step DecodeDump formatFloat WriterRecv s = Some s' ->
  exists str,
    buf (opipe s) = str :: buf (opipe s') /\
    wrun [Recv str; Go i; Go k; Go j]
         {| w_wbytes := wbytes (cmd s); w_saveto := saveto s; w_phase := AtHead |}
    = Some {| w_wbytes := wbytes (cmd s'); w_saveto := saveto s';
              w_phase := AtHead |}.
Proof.
  intros H. unfold step, main_step in H. break_step H. injection H as <-.
  chan_facts. eexists. split; [eassumption|].
  simpl. rewrite <- app_assoc, firstn_skipn. reflexivity.
Qed.
End PipelineMore.

(* ------------------------------------------------------------------ *)
(** ** The status line and the monitor loop *)

Lemma statusLine_total nsize stat :
  exists line, statusLine nsize stat = Ok line.
Proof.
  unfold statusLine, div64.
  destruct (nsize =? 0); simpl; eauto.
Qed.

(** X17. For a source of known size [nsize] of which [rbytes] bytes were
    read, [0 <= rbytes <= nsize], and while [100 * nsize] fits an [int64],
    the status line is produced and the percentage it shows is
    [100 * rbytes / nsize] rounded down, between 0 and 100, and 100 only when
    everything was read. *)
Theorem status_line_percentage (nsize : Z) (stat : cmdDecodeStat) :
  0 < nsize -> 0 <= stat_rbytes stat <= nsize -> 100 * nsize <= int64.max ->
  exists pct,
    div64 (mul64 100 (stat_rbytes stat)) nsize = Ok pct /\
    pct = (100 * stat_rbytes stat) / nsize /\
    0 <= pct <= 100 /\
    (pct = 100 <-> stat_rbytes stat = nsize) /\
    statusLine nsize stat =
    Ok (lit "decode: " ++
        (lit "total = " ++ fmt.d nsize ++ lit " - " ++
         fmt.dw 12 (stat_rbytes stat) ++ lit " [" ++ fmt.dw 3 pct ++ lit "%]") ++
        lit "  write=" ++ fmt.dl 12 (stat_wbytes stat) ++
        lit "  entry=" ++ fmt.dl 12 (stat_nentry stat)).
Proof.
  intros Hn Hr Hfit.
  set (r := stat_rbytes stat) in *.
  assert (Hq : 0 <= (100 * r) / nsize <= 100).
  { split.
    - apply Z.div_pos; lia.
    - apply Z.div_le_upper_bound; lia. }
  assert (Hmul : mul64 100 r = 100 * r).
  { unfold mul64. apply wrap_in_range.
    unfold int64.in_range, int64.min, int64.max in *. lia. }
  assert (Hdiv : div64 (mul64 100 r) nsize = Ok ((100 * r) / nsize)).
  { unfold div64. rewrite Hmul.
    destruct (nsize =? 0) eqn:E; [apply Z.eqb_eq in E; lia|].
    rewrite Z.quot_div_nonneg by lia.
    rewrite wrap_in_range; [reflexivity|].
    unfold int64.in_range, int64.min, int64.max. lia. }
  exists ((100 * r) / nsize).
  split; [exact Hdiv|]. split; [reflexivity|]. split; [exact Hq|]. split.
  - split.
    + intros H100.
      assert (H : nsize * 100 <= 100 * r).
      { rewrite <- H100 at 1. apply Z.mul_div_le. lia. }
      lia.
    + intros ->. apply Z.div_mul. lia.
  - unfold statusLine. fold r. rewrite Hdiv.
    destruct (nsize =? 0) eqn:E; [apply Z.eqb_eq in E; lia|].
    reflexivity.
Qed.

Lemma statusLine_status nsize c : statusLine nsize (Stat c) = Ok (status nsize c).
Proof.
  unfold status. destruct (statusLine_total nsize (Stat c)) as [l ->]. reflexivity.
Qed.

(** X18. The monitor loop never fails (the division of line 109 is guarded
    by [nsize != 0]); it logs one status line at every wake-up, the last of
    them at the first wake-up that finds [wait] closed, then ["decode: done"],
    and takes no further wake-up; as long as only the timer fires it keeps
    logging status lines and never says done. *)
Theorem monitor_loop_lines (nsize : Z) (ticks : list (wake * cmdDecode))
        (c : cmdDecode) (later : list (wake * cmdDecode)) :
  Forall (fun w => fst w = Tick) ticks ->
  (forall wakes, exists logged, monitorLoop nsize wakes = Ok logged) /\
  monitorLoop nsize ticks = Ok (map (fun w => status nsize (snd w)) ticks) /\
  monitorLoop nsize (ticks ++ (WaitClosed, c) :: later) =
  Ok (map (fun w => status nsize (snd w)) ticks ++
      [status nsize c; lit "decode: done"]).
Proof.
  intros Hticks. split.
  { induction wakes as [|[w c0] wakes [logged IH]]; simpl; eauto.
    rewrite statusLine_status. simpl. destruct w; eauto.
    rewrite IH. simpl. eauto. }
  induction Hticks as [|[w c0] ticks Hw Hticks [IH1 IH2]]; simpl.
  - rewrite statusLine_status. simpl. auto.
  - simpl in Hw. subst w. rewrite statusLine_status. simpl.
    rewrite IH1, IH2. simpl. auto.
Qed.

Lemma length_zero_empty (p : string) : (String.length p =? 0)%nat = true <-> p = EmptyString.
Proof.
  destruct p; simpl; split; intros H; try reflexivity; discriminate.
Qed.

(** X19. Standard input is read exactly when the input path is empty or
    [/dev/stdin]; its size is then taken as unknown and the status line shows
    the bytes read without a percentage. Every other path is opened as a file
    of the size [openReadFile] reports. The same holds of the output path
    and [/dev/stdout]. *)
Theorem standard_streams (fileSize : string -> Z) (path : string) (stat : cmdDecodeStat) :
  (path = EmptyString \/ path = "/dev/stdin"%string ->
   readinOf fileSize path = (Std, 0) /\
   statusLine (snd (readinOf fileSize path)) stat =
   Ok (lit "decode: " ++ (lit "total = " ++ fmt.dw 12 (stat_rbytes stat)) ++
       lit "  write=" ++ fmt.dl 12 (stat_wbytes stat) ++
       lit "  entry=" ++ fmt.dl 12 (stat_nentry stat))) /\
  (path <> EmptyString -> path <> "/dev/stdin"%string ->
   readinOf fileSize path = (File path, fileSize path)) /\
  (path = EmptyString \/ path = "/dev/stdout"%string -> savetoOf path = Std) /\
  (path <> EmptyString -> path <> "/dev/stdout"%string -> savetoOf path = File path).
Proof.
  repeat split.
  - destruct H as [-> | ->]; reflexivity.
  - destruct H as [-> | ->]; reflexivity.
  - intros Hne Hstd. unfold readinOf, orDefault.
    destruct (String.length path =? 0)%nat eqn:E.
    + apply length_zero_empty in E. contradiction.
    + destruct (String.eqb path "/dev/stdin") eqn:E2; simpl; trivial.
      apply String.eqb_eq in E2. contradiction.
  - intros [-> | ->]; reflexivity.
  - intros Hne Hstd. unfold savetoOf, orDefault.
    destruct (String.length path =? 0)%nat eqn:E.
    + apply length_zero_empty in E. contradiction.
    + destruct (String.eqb path "/dev/stdout") eqn:E2; simpl; trivial.
      apply String.eqb_eq in E2. contradiction.
Qed.

(* ------------------------------------------------------------------ *)
(** ** The further properties on concrete runs *)

Lemma toBase64_injective_witness :
  toBase64 (lit "foo") = toBase64 (lit "foo") /\ lit "foo" = lit "foo".
Proof.
  split; [reflexivity|].
  apply (toBase64_injective (lit "foo") (lit "foo")). reflexivity.
Defined.

Lemma queues_bounded_witness :
  run sample_DecodeDump sample_formatFloat
      [LoaderPush; WorkerRecv 0; WorkerOp 0] (init 2 [list_ab; foo_bar])
  = Some counted_state /\
  (length (buf (ipipe counted_state)) <= 2 * 32)%nat /\
  (length (buf (opipe counted_state)) <= 2 * 32)%nat.
Proof.
  split; [vm_compute; reflexivity|].
  apply (queues_bounded sample_DecodeDump sample_formatFloat 2 [list_ab; foo_bar]
           [LoaderPush; WorkerRecv 0; WorkerOp 0] counted_state).
  vm_compute. reflexivity.
Defined.

Lemma opipe_closed_after_workers_witness :
  closed (opipe final_state) = true /\
  all_exited (workers final_state) = true /\
  closed (ipipe final_state) = true /\ buf (ipipe final_state) = [] /\
  source final_state = [] /\
  forall i, step sample_DecodeDump sample_formatFloat (WorkerOp i) final_state = None.
Proof.
  split; [reflexivity|].
  apply (opipe_closed_after_workers sample_DecodeDump sample_formatFloat
           2 [list_ab; foo_bar] (sequential 2 2) final_state).
  - lia.
  - vm_compute. reflexivity.
  - reflexivity.
Defined.

Lemma completed_is_final_witness :
  completed final_state /\
  step sample_DecodeDump sample_formatFloat Monitor final_state = Some reported_state /\
  Monitor = Monitor /\ cmd reported_state = cmd final_state /\
  saveto reported_state = saveto final_state /\ completed reported_state.
Proof.
  split; [reflexivity|]. split; [vm_compute; reflexivity|].
  apply (completed_is_final sample_DecodeDump sample_formatFloat
           2 [list_ab; foo_bar] (sequential 2 2) final_state Monitor reported_state).
  - lia.
  - vm_compute. reflexivity.
  - reflexivity.
  - vm_compute. reflexivity.
Defined.

Lemma final_report_witness :
  exists r,
    reports reported_state = reports final_state ++ [r] /\
    stat_nentry r = int64.wrap (len [list_ab; foo_bar]) /\
    stat_wbytes r = int64.wrap (len (saveto final_state)).
Proof.
  apply (final_report sample_DecodeDump sample_formatFloat
           2 [list_ab; foo_bar] (sequential 2 2) final_state reported_state).
  - lia.
  - vm_compute. reflexivity.
  - reflexivity.
  - vm_compute. reflexivity.
Defined.

Lemma output_is_the_records_witness :
  exists written,
    saveto final_state = concat written /\
    Permutation written
      (flat_map (record_texts sample_DecodeDump sample_formatFloat) [list_ab; foo_bar]).
Proof.
  apply (output_is_the_records sample_DecodeDump sample_formatFloat
           2 [list_ab; foo_bar] (sequential 2 2) final_state).
  - lia.
  - vm_compute. reflexivity.
  - reflexivity.
Defined.

Lemma lines_written_independent_witness :
  count_lines (saveto final_state) = count_lines (saveto final_state_single) /\
  count_lines (saveto final_state) =
  list_sum (map count_lines
                (flat_map (record_texts sample_DecodeDump sample_formatFloat)
                          [list_ab; foo_bar])).
Proof.
  apply (lines_written_independent sample_DecodeDump sample_formatFloat
           2 1 [list_ab; foo_bar] (sequential 2 2) (sequential 2 1)
           final_state final_state_single).
  - lia.
  - lia.
  - vm_compute. reflexivity.
  - reflexivity.
  - vm_compute. reflexivity.
  - reflexivity.
Defined.

Lemma single_worker_keeps_order_witness :
  saveto final_state_single =
  concat (flat_map (record_texts sample_DecodeDump sample_formatFloat)
                   [list_ab; foo_bar]).
Proof.
  apply (single_worker_keeps_order sample_DecodeDump sample_formatFloat
           [list_ab; foo_bar] (sequential 2 1) final_state_single).
  - vm_compute. reflexivity.
  - reflexivity.
Defined.

Lemma deadlock_free_witness :
  aborted counted_state = false /\ wait counted_state = false /\
  exists a s', is_work a = true /\
               step sample_DecodeDump sample_formatFloat a counted_state = Some s'.
Proof.
  split; [reflexivity|]. split; [reflexivity|].
  apply (deadlock_free sample_DecodeDump sample_formatFloat 2 [list_ab; foo_bar]
           [LoaderPush; WorkerRecv 0; WorkerOp 0] counted_state).
  - lia.
  - vm_compute. reflexivity.
  - reflexivity.
  - reflexivity.
Defined.

Lemma can_finish_witness :
  exists rest s',
    run sample_DecodeDump sample_formatFloat rest counted_state = Some s' /\
    (completed s' \/ aborted s' = true).
Proof.
  apply (can_finish sample_DecodeDump sample_formatFloat 2 [list_ab; foo_bar]
           [LoaderPush; WorkerRecv 0; WorkerOp 0] counted_state).
  - lia.
  - vm_compute. reflexivity.
Defined.

Lemma status_line_percentage_witness :
  exists pct,
    div64 (mul64 100 250) 1000 = Ok pct /\
    pct = (100 * 250) / 1000 /\
    0 <= pct <= 100 /\
    (pct = 100 <-> 250 = 1000) /\
    statusLine 1000 {| stat_rbytes := 250; stat_wbytes := 4096; stat_nentry := 7 |} =
    Ok (lit "decode: " ++
        (lit "total = " ++ fmt.d 1000 ++ lit " - " ++
         fmt.dw 12 250 ++ lit " [" ++ fmt.dw 3 pct ++ lit "%]") ++
        lit "  write=" ++ fmt.dl 12 4096 ++
        lit "  entry=" ++ fmt.dl 12 7).
Proof.
  apply (status_line_percentage 1000
           {| stat_rbytes := 250; stat_wbytes := 4096; stat_nentry := 7 |}).
  - lia.
  - simpl. lia.
  - unfold int64.max. lia.
Defined.

Lemma monitor_loop_lines_witness :
  Forall (fun w => fst w = Tick) [(Tick, cmd counted_state)] /\
  (forall wakes, exists logged, monitorLoop 0 wakes = Ok logged) /\
  monitorLoop 0 [(Tick, cmd counted_state)] =
  Ok (map (fun w => status 0 (snd w)) [(Tick, cmd counted_state)]) /\
  monitorLoop 0 ([(Tick, cmd counted_state)] ++
                 (WaitClosed, cmd final_state) :: [(Tick, cmd final_state)]) =
  Ok (map (fun w => status 0 (snd w)) [(Tick, cmd counted_state)] ++
      [status 0 (cmd final_state); lit "decode: done"]).
Proof.
  assert (H : Forall (fun w : wake * cmdDecode => fst w = Tick) [(Tick, cmd counted_state)])
    by (repeat constructor).
  split; [exact H|].
  apply (monitor_loop_lines 0 [(Tick, cmd counted_state)] (cmd final_state)
           [(Tick, cmd final_state)]).
  exact H.
Defined.

(* ------------------------------------------------------------------ *)
(** ** The writer statement by statement *)





Lemma wstep_failed ev st : w_phase st = Failed -> wstep ev st = None.
Proof. unfold wstep. intros ->. destruct ev; reflexivity. Qed.


(* ------------------------------------------------------------------ *)
(** ** Further concrete runs *)


Lemma loops_bounded_witness :
  run sample_DecodeDump sample_formatFloat sampled_schedule (init 2 [list_ab; foo_bar])
  = Some sampled_final_state /\
  count_steps is_work sampled_schedule = 15%nat /\
  length sampled_schedule = 21%nat /\
  (count_steps is_push sampled_schedule <= length [list_ab; foo_bar])%nat /\
  (count_steps is_recv sampled_schedule <= length [list_ab; foo_bar])%nat /\
  (count_steps is_op sampled_schedule <= 2 * length [list_ab; foo_bar])%nat /\
  (count_steps is_write sampled_schedule <= length [list_ab; foo_bar])%nat /\
  (count_steps is_exit sampled_schedule <= 2)%nat /\
  (count_steps is_close_ipipe sampled_schedule <= 1)%nat /\
  (count_steps is_close_opipe sampled_schedule <= 1)%nat /\
  (count_steps is_close_wait sampled_schedule <= 1)%nat.
Proof.
  split; [vm_compute; reflexivity|]. split; [reflexivity|]. split; [reflexivity|].
  apply (loops_bounded sample_DecodeDump sample_formatFloat 2 [list_ab; foo_bar]
           sampled_schedule sampled_final_state).
  vm_compute. reflexivity.
Defined.

Lemma writer_step_is_iteration_witness :
  step sample_DecodeDump sample_formatFloat WriterRecv sent_state = Some written_state /\
  exists str,
    buf (opipe sent_state) = str :: buf (opipe written_state) /\
    wrun [Recv str; Go 0; Go 100; Go 0]
         {| w_wbytes := wbytes (cmd sent_state); w_saveto := saveto sent_state;
            w_phase := AtHead |}
    = Some {| w_wbytes := wbytes (cmd written_state);
              w_saveto := saveto written_state; w_phase := AtHead |}.
Proof.
  split; [vm_compute; reflexivity|].
  apply (writer_step_is_iteration sample_DecodeDump sample_formatFloat
           sent_state written_state 0 100 0).
  vm_compute. reflexivity.
Defined.

